(** * Design-pattern examples: a shallow embedding and its verification

    The repository is a set of independent Python scripts, one per design
    pattern.  Part I embeds the classes the verified properties talk about,
    one module per script; Part II states and proves the numbered
    properties; Part III proves further properties of the same code.

    Conventions of the embedding:
    - a Python [int] is a [Z]; a Python [float] is a binary64 value, Rocq's
      primitive [float], so float arithmetic evaluates exactly as CPython's;
    - a Python [str] is a [string] (the UTF-8 bytes of the text); where the
      code slices a text or takes its length, characters are code points;
    - an object that is reached through more than one name (a list passed
      to a method, an item held by a folder) lives in an explicit store and
      is named by a reference, and methods thread the store; an object with
      one owner (a context, a subject) is a record, and a method that
      mutates it returns the record after the call;
    - [print] appends a line to an output trace; [raise] is the [Raise]
      constructor of [result]. *)

From Stdlib Require Import ZArith QArith Floats Lia Permutation Sorted.
From stdpp Require Import list strings gmap pretty sorting.

Set Default Proof Using "Type".
#[local] Set Warnings "-inexact-float,-register-all".

(* ===================================================================== *)
(** * Part I.  The embedding                                              *)
(* ===================================================================== *)

(** ** Python exceptions and results *)

Inductive exn : Type :=
| ValueError (msg : string)
| IndexError (msg : string)
| TypeError (msg : string)
| OverflowError (msg : string).

Inductive result (A : Type) : Type :=
| Return (a : A)
| Raise (e : exn).
Arguments Return {A} a.
Arguments Raise {A} e.

(** ** src/1_strategy/2_sorting_algorithms/example.py *)

Module Sorting.

(** Python lists are mutable objects.  The store maps a reference (an
    index) to the current contents of the list object; objects are never
    freed, so allocation appends at the end. *)
Abbreviation ref := nat.
Abbreviation heap := (list (list Z)).

(** Outcome of running a method on a store.  [Stuck] is not a Python
    behaviour: it marks a model run that exhausted its fuel or followed a
    reference that names no object. *)
Inductive outcome (A : Type) : Type :=
| Ok (a : A) (h : heap)
| Err (e : exn)
| Stuck.
Arguments Ok {A} a h.
Arguments Err {A} e.
Arguments Stuck {A}.

Definition M (A : Type) : Type := heap -> outcome A.

Definition ret {A} (a : A) : M A := fun h => Ok a h.
Definition bind {A B} (m : M A) (k : A -> M B) : M B :=
  fun h => match m h with
           | Ok a h' => k a h'
           | Err e => Err e
           | Stuck => Stuck
           end.
Definition raise {A} (e : exn) : M A := fun _ => Err e.
Definition stuck {A} : M A := fun _ => Stuck.

Notation "x <- m ;; k" := (bind m (fun x => k))
  (at level 100, m at next level, right associativity).
Notation "m ;;; k" := (bind m (fun _ => k))
  (at level 100, right associativity).

(** *** List primitives *)

(** A list display, comprehension, slice, copy or [+] builds a new object. *)
Definition new (v : list Z) : M ref := fun h => Ok (length h) (h ++ [v]).

(** The current contents of an object (iteration over it, [len]). *)
Definition get (r : ref) : M (list Z) :=
  fun h => match h !! r with
           | Some v => Ok v h
           | None => Stuck
           end.

Definition len (r : ref) : M nat := v <- get r ;; ret (length v).

(** [r[i]] for a non-negative index. *)
Definition index (r : ref) (i : nat) : M Z :=
  v <- get r ;;
  match v !! i with
  | Some x => ret x
  | None => raise (IndexError "list index out of range")
  end.

(** [r[i] = x] for a non-negative index. *)
Definition setitem (r : ref) (i : nat) (x : Z) : M unit :=
  fun h => match h !! r with
           | Some v =>
               if decide (i < length v)
               then Ok tt (<[r := <[i := x]> v]> h)
               else Err (IndexError "list assignment index out of range")
           | None => Stuck
           end.

(** [r.append(x)] and [r.extend(xs)] mutate [r] in place. *)
Definition append (r : ref) (x : Z) : M unit :=
  fun h => match h !! r with
           | Some v => Ok tt (<[r := v ++ [x]]> h)
           | None => Stuck
           end.

Definition extend (r : ref) (xs : ref) : M unit :=
  ys <- get xs ;;
  fun h => match h !! r with
           | Some v => Ok tt (<[r := v ++ ys]> h)
           | None => Stuck
           end.

(** [[x for x in r if P x]] *)
Definition comprehension (P : Z -> Prop) `{!∀ x, Decision (P x)} (r : ref) : M ref :=
  v <- get r ;; new (filter P v).

(** [a + b] *)
Definition concat (a b : ref) : M ref :=
  x <- get a ;; y <- get b ;; new (x ++ y).

(** [r[:k]] and [r[k:]] for a non-negative [k]. *)
Definition slice_to (r : ref) (k : nat) : M ref := v <- get r ;; new (take k v).
Definition slice_from (r : ref) (k : nat) : M ref := v <- get r ;; new (drop k v).

(** [r.copy()] *)
Definition copy (r : ref) : M ref := v <- get r ;; new v.

(** *** class QuickSortStrategy *)

Module QuickSortStrategy.
(** [fuel] bounds the depth of the recursion. *)
Fixpoint sort (fuel : nat) (data : ref) : M ref :=
  match fuel with
  | O => stuck
  | S fuel =>
      n <- len data ;;
      if decide (n ≤ 1) then ret data
      else
        pivot <- index data (n / 2) ;;
        left <- comprehension (fun x => x < pivot)%Z data ;;
        middle <- comprehension (fun x => x = pivot) data ;;
        right <- comprehension (fun x => x > pivot)%Z data ;;
        sl <- sort fuel left ;;
        lm <- concat sl middle ;;
        sr <- sort fuel right ;;
        concat lm sr
  end.

Definition get_name : string := "QuickSort".
End QuickSortStrategy.

(** *** class MergeSortStrategy *)

Module MergeSortStrategy.
(** The [while] loop of [_merge]; [fuel] bounds its iterations. *)
Fixpoint merge_loop (fuel : nat) (left right result : ref) (i j : nat)
  : M (nat * nat) :=
  match fuel with
  | O => stuck
  | S fuel =>
      nl <- len left ;;
      nr <- len right ;;
      if decide (i < nl ∧ j < nr) then
        a <- index left i ;;
        b <- index right j ;;
        if decide (a ≤ b)%Z then
          append result a ;;;
          merge_loop fuel left right result (i + 1) j
        else
          append result b ;;;
          merge_loop fuel left right result i (j + 1)
      else ret (i, j)
  end.

Definition _merge (fuel : nat) (left right : ref) : M ref :=
  result <- new [] ;;
  ij <- merge_loop fuel left right result 0 0 ;;
  tl <- slice_from left (fst ij) ;;
  extend result tl ;;;
  tr <- slice_from right (snd ij) ;;
  extend result tr ;;;
  ret result.

(** [fuel] bounds the depth of the recursion and, at each level, the
    iterations of the merge loop. *)
Fixpoint sort (fuel : nat) (data : ref) : M ref :=
  match fuel with
  | O => stuck
  | S fuel =>
      n <- len data ;;
      if decide (n ≤ 1) then ret data
      else
        let mid := n / 2 in
        dl <- slice_to data mid ;;
        left <- sort fuel dl ;;
        dr <- slice_from data mid ;;
        right <- sort fuel dr ;;
        _merge fuel left right
  end.

Definition get_name : string := "MergeSort".
End MergeSortStrategy.

(** *** class BubbleSortStrategy *)

Module BubbleSortStrategy.
(** [for j in range(0, n - i - 1)]: the body over the remaining values
    of [j], threading the local [swapped]. *)
Fixpoint inner (arr : ref) (js : list nat) (swapped : bool) : M bool :=
  match js with
  | [] => ret swapped
  | j :: js =>
      a <- index arr j ;;
      b <- index arr (j + 1) ;;
      if decide (a > b)%Z then
        x <- index arr (j + 1) ;;
        y <- index arr j ;;
        setitem arr j x ;;;
        setitem arr (j + 1) y ;;;
        inner arr js true
      else inner arr js swapped
  end.

(** [for i in range(n)], with its [break]. *)
Fixpoint outer (arr : ref) (n : nat) (rng : list nat) : M unit :=
  match rng with
  | [] => ret tt
  | i :: rng =>
      swapped <- inner arr (seq 0 (n - i - 1)) false ;;
      if negb swapped then ret tt
      else outer arr n rng
  end.

(** Takes the fuel argument of the interface and ignores it: the loops
    range over finite sequences. *)
Definition sort (fuel : nat) (data : ref) : M ref :=
  arr <- copy data ;;
  n <- len arr ;;
  outer arr n (seq 0 n) ;;;
  ret arr.

Definition get_name : string := "BubbleSort".
End BubbleSortStrategy.

(** *** class SortStrategy (the interface) and class DataSorter *)

Record SortStrategy : Type := {
  sort : nat -> ref -> M ref;
  get_name : string
}.

Definition QuickSort : SortStrategy :=
  {| sort := QuickSortStrategy.sort; get_name := QuickSortStrategy.get_name |}.
Definition MergeSort : SortStrategy :=
  {| sort := MergeSortStrategy.sort; get_name := MergeSortStrategy.get_name |}.
Definition BubbleSort : SortStrategy :=
  {| sort := BubbleSortStrategy.sort; get_name := BubbleSortStrategy.get_name |}.

Record DataSorter : Type := { _strategy : option SortStrategy }.

(** [DataSorter(strategy=None)] *)
Definition __init__ (strategy : option SortStrategy) : DataSorter :=
  {| _strategy := strategy |}.

Definition set_strategy (self : DataSorter) (strategy : option SortStrategy)
  : DataSorter :=
  {| _strategy := strategy |}.

Definition sort_data (self : DataSorter) (fuel : nat) (data : ref) : M ref :=
  match _strategy self with
  | None => raise (ValueError "No sorting strategy set")
  | Some s => sort s fuel data
  end.

Definition get_strategy_name (self : DataSorter) : string :=
  match _strategy self with
  | Some s => get_name s
  | None => "None"
  end.

(** The list of the demonstration, and what the demonstration prints for
    it. *)
Definition test_data : list Z := [64; 34; 25; 12; 22; 11; 90; 5; 77; 50]%Z.
Definition test_data_sorted : list Z := [5; 11; 12; 22; 25; 34; 50; 64; 77; 90]%Z.

(** *** Vocabulary of the properties *)

(** A context on which [set_strategy(None)] was called [k] times. *)
Definition cleared (k : nat) (self : DataSorter) : DataSorter :=
  Nat.iter k (fun c => set_strategy c None) self.

(** [m], run on [h], returns normally, with a value and a store that
    satisfy [Q]. *)
Definition returns {A} (m : M A) (h : heap) (Q : A -> heap -> Prop) : Prop :=
  ∃ a h', m h = Ok a h' ∧ Q a h'.

(** Every object of [h] is in [h'], with the contents it had. *)
Definition preserved (h h' : heap) : Prop := h `prefix_of` h'.

(** [r] names, in [h'], a sorted rearrangement of [d], and [h'] keeps the
    objects of [h]. *)
Definition sorted_result (h : heap) (d : list Z) (r : ref) (h' : heap) : Prop :=
  preserved h h'
  ∧ ∃ out, h' !! r = Some out ∧ out ≡ₚ d ∧ StronglySorted Z.le out.

(** One of the three strategies of the script. *)
Definition three (s : SortStrategy) : Prop :=
  s = QuickSort ∨ s = MergeSort ∨ s = BubbleSort.

(** The merge of two lists, by value: what [_merge] leaves in [result]. *)
Fixpoint merge_lists (l : list Z) : list Z -> list Z :=
  fix inner (r : list Z) : list Z :=
    match l, r with
    | [], _ => r
    | _, [] => l
    | a :: l', b :: r' =>
        if decide (a ≤ b)%Z then a :: merge_lists l' r else b :: inner r'
    end.

(** One pass of the bubble sort over a list, by value: [k] comparisons from
    the front, with the value of [swapped] at the end. *)
Fixpoint bubble_pass (k : nat) (l : list Z) : list Z * bool :=
  match k, l with
  | S k, x :: y :: t =>
      if decide (x > y)%Z
      then (y :: (bubble_pass k (x :: t)).1, true)
      else (x :: (bubble_pass k (y :: t)).1, (bubble_pass k (y :: t)).2)
  | _, _ => (l, false)
  end.

End Sorting.

(** ** src/1_strategy/1_payment_processing/example.py *)

Module Payment.

(** What a method prints, then what it returns or raises. *)
Definition IO (A : Type) : Type := list string * result A.

(** The values of the result dictionaries. *)
Inductive value : Type :=
| VStr (s : string)
| VFloat (x : float).

(** A dictionary display, in insertion order. *)
Definition dict : Type := list (string * value).

(** Characters.  A string holds the UTF-8 encoding of a text, and Python
    slices and measures a text by characters (code points): a character is
    a byte that is not a continuation byte (10xxxxxx), followed by its
    continuation bytes. *)
Definition continuation (c : Ascii.ascii) : bool :=
  let n := Ascii.nat_of_ascii c in (128 <=? n) && (n <? 192).

(** [len(s)] *)
Fixpoint len (s : string) : nat :=
  match s with
  | EmptyString => 0
  | String c s => if continuation c then len s else S (len s)
  end.

(** [s] without the continuation bytes at its front. *)
Fixpoint skip_continuation (s : string) : string :=
  match s with
  | EmptyString => EmptyString
  | String c s' => if continuation c then skip_continuation s' else s
  end.

(** [s[k:]] *)
Fixpoint skip_chars (k : nat) (s : string) : string :=
  match k with
  | O => s
  | S k =>
      match s with
      | EmptyString => EmptyString
      | String _ s' => skip_chars k (skip_continuation s')
      end
  end.

(** [s[:n]] *)
Fixpoint first_chars (n : nat) (s : string) : string :=
  match s with
  | EmptyString => EmptyString
  | String c s' =>
      if continuation c then String c (first_chars n s')
      else match n with
           | O => EmptyString
           | S n' => String c (first_chars n' s')
           end
  end.

(** [s[-n:]]; [s[-0:]] is all of [s]. *)
Definition last_chars (n : nat) (s : string) : string :=
  match n with
  | O => s
  | S _ => skip_chars (len s - n) s
  end.

(** class PaymentStrategy: an object is the record of its methods. *)
Record PaymentStrategy : Type := { pay : float -> IO dict }.

Section Builtins.
(** The built-in [hash] on strings (salted per process) and the format
    specification [.2f] are Python's, not the repository's. *)
Variable hash : string -> Z.
Variable fmt2 : float -> string.

Definition CreditCardPayment (card_number cvv : string) : PaymentStrategy :=
  {| pay := fun amount =>
       ([ "Processing credit card payment of $" +:+ fmt2 amount;
          "Card: ****" +:+ last_chars 4 card_number ],
        Return [ ("status", VStr "success");
                 ("method", VStr "credit_card");
                 ("amount", VFloat amount);
                 ("transaction_id",
                   VStr ("CC-" +:+ pretty (hash card_number `mod` 10000)%Z)) ]) |}.

Definition PayPalPayment (email : string) : PaymentStrategy :=
  {| pay := fun amount =>
       ([ "Processing PayPal payment of $" +:+ fmt2 amount;
          "PayPal account: " +:+ email ],
        Return [ ("status", VStr "success");
                 ("method", VStr "paypal");
                 ("amount", VFloat amount);
                 ("transaction_id",
                   VStr ("PP-" +:+ pretty (hash email `mod` 10000)%Z)) ]) |}.

Definition CryptoPayment (wallet_address currency : string) : PaymentStrategy :=
  {| pay := fun amount =>
       ([ "Processing " +:+ currency +:+ " payment of $" +:+ fmt2 amount;
          "Wallet: " +:+ first_chars 10 wallet_address +:+ "..."
            +:+ last_chars 10 wallet_address ],
        Return [ ("status", VStr "success");
                 ("method", VStr "crypto");
                 ("currency", VStr currency);
                 ("amount", VFloat amount);
                 ("transaction_id",
                   VStr ("CRYPTO-" +:+ pretty (hash wallet_address `mod` 10000)%Z)) ]) |}.
End Builtins.

(** class PaymentProcessor *)
Record PaymentProcessor : Type := { _strategy : option PaymentStrategy }.

(** [PaymentProcessor(strategy=None)] *)
Definition __init__ (strategy : option PaymentStrategy) : PaymentProcessor :=
  {| _strategy := strategy |}.

Definition set_strategy (self : PaymentProcessor)
  (strategy : option PaymentStrategy) : PaymentProcessor :=
  {| _strategy := strategy |}.

Definition process_payment (self : PaymentProcessor) (amount : float) : IO dict :=
  match _strategy self with
  | None => ([], Raise (ValueError "No payment strategy set"))
  | Some s => pay s amount
  end.

(** *** Vocabulary of the properties *)

(** A context on which [set_strategy(None)] was called [k] times. *)
Definition cleared (k : nat) (self : PaymentProcessor) : PaymentProcessor :=
  Nat.iter k (fun c => set_strategy c None) self.

(** [d[key]] on a result dictionary; [None] when the key is missing. *)
Fixpoint dict_get (key : string) (d : dict) : option value :=
  match d with
  | [] => None
  | (k, v) :: d => if decide (k = key) then Some v else dict_get key d
  end.


(** The three payment methods of the script, for any of their constructor
    arguments. *)
Inductive provided (hash : string -> Z) (fmt2 : float -> string)
  : PaymentStrategy -> string -> string -> Prop :=
| provided_credit_card card_number cvv :
    provided hash fmt2 (CreditCardPayment hash fmt2 card_number cvv)
      "credit_card" "CC-"
| provided_paypal email :
    provided hash fmt2 (PayPalPayment hash fmt2 email) "paypal" "PP-"
| provided_crypto wallet_address currency :
    provided hash fmt2 (CryptoPayment hash fmt2 wallet_address currency)
      "crypto" "CRYPTO-".

End Payment.

(** ** src/2_decorator/1_coffee_shop/example.py *)

Module CoffeeShop.

(** [float(n)] for an [int], as the mixed [float * int] product performs
    it: round to nearest even, [OverflowError] beyond the finite range. *)
Definition float_of_int (n : Z) : result float :=
  let x := SF2Prim (binary_normalize prec emax n 0 false) in
  if PrimFloat.is_infinity x
  then Raise (OverflowError "int too large to convert to float")
  else Return x.

(** The class hierarchy under [Beverage]; a decorator holds the one
    beverage it wraps, [SugarDecorator] also its [teaspoons]. *)
Inductive Beverage : Type :=
| Espresso
| MilkDecorator (_beverage : Beverage)
| SugarDecorator (_beverage : Beverage) (_teaspoons : Z)
| WhipDecorator (_beverage : Beverage)
| CaramelDecorator (_beverage : Beverage).

Fixpoint get_description (self : Beverage) : string :=
  match self with
  | Espresso => "Espresso"
  | MilkDecorator b => get_description b +:+ ", Milk"
  | SugarDecorator b t => get_description b +:+ (", " +:+ pretty t +:+ " tsp Sugar")
  | WhipDecorator b => get_description b +:+ ", Whipped Cream"
  | CaramelDecorator b => get_description b +:+ ", Caramel"
  end.

Fixpoint get_cost (self : Beverage) : result float :=
  match self with
  | Espresso => Return 2.50%float
  | MilkDecorator b =>
      match get_cost b with
      | Return c => Return (c + 0.50)%float
      | Raise e => Raise e
      end
  | SugarDecorator b t =>
      match get_cost b with
      | Return c =>
          match float_of_int t with
          | Return ft => Return (c + 0.10 * ft)%float
          | Raise e => Raise e
          end
      | Raise e => Raise e
      end
  | WhipDecorator b =>
      match get_cost b with
      | Return c => Return (c + 0.75)%float
      | Raise e => Raise e
      end
  | CaramelDecorator b =>
      match get_cost b with
      | Return c => Return (c + 0.60)%float
      | Raise e => Raise e
      end
  end.

(** The decorators as wrapping operations; [Sugar t] is
    [SugarDecorator(_, teaspoons=t)]. *)
Inductive Decorator : Type :=
| Milk
| Sugar (teaspoons : Z)
| Whip
| Caramel.

Definition wrap (d : Decorator) (b : Beverage) : Beverage :=
  match d with
  | Milk => MilkDecorator b
  | Sugar t => SugarDecorator b t
  | Whip => WhipDecorator b
  | Caramel => CaramelDecorator b
  end.

(** [coffee2] of the demonstration. *)
Definition coffee2 : Beverage := SugarDecorator (MilkDecorator Espresso) 2.

(** *** Vocabulary of the properties *)

(** The suffix a decorator appends to the description. *)
Definition suffix (d : Decorator) : string :=
  match d with
  | Milk => ", Milk"
  | Sugar t => ", " +:+ pretty t +:+ " tsp Sugar"
  | Whip => ", Whipped Cream"
  | Caramel => ", Caramel"
  end.

(** The amount the price list denotes, its decimal literals read as
    exact rationals.  The program does not compute it: [get_cost] works in
    binary64 and returns a rounded value close to it. *)
Fixpoint get_cost_exact (self : Beverage) : Q :=
  match self with
  | Espresso => 250 # 100
  | MilkDecorator b => get_cost_exact b + (50 # 100)
  | SugarDecorator b t => get_cost_exact b + (10 # 100) * inject_Z t
  | WhipDecorator b => get_cost_exact b + (75 # 100)
  | CaramelDecorator b => get_cost_exact b + (60 # 100)
  end.

(** The rational a finite binary64 value is. *)
Definition exact_value (x : float) : option Q :=
  match Prim2SF x with
  | S754_zero _ => Some 0%Q
  | S754_finite s m e => Some (inject_Z (cond_Zopp s (Zpos m)) * Qpower 2 e)%Q
  | _ => None
  end.

(** The cost [get_cost] returns lies within [delta] of the exact amount. *)
Definition cost_near_exact (delta : Q) (b : Beverage) : bool :=
  match get_cost b with
  | Return c =>
      match exact_value c with
      | Some v =>
          Qle_bool (get_cost_exact b - delta) v
          && Qle_bool v (get_cost_exact b + delta)
      | None => false
      end
  | Raise _ => false
  end.

(** The order built by wrapping an espresso with the decorators of [ds],
    first to last. *)
Definition build (ds : list Decorator) : Beverage :=
  foldl (fun b d => wrap d b) Espresso ds.


(** All orders of at most [n] wraps over an espresso, with the
    decorators of [ds]. *)
Fixpoint orders (ds : list Decorator) (n : nat) : list Beverage :=
  match n with
  | O => [Espresso]
  | S n => Espresso :: flat_map (fun b => map (fun d => wrap d b) ds) (orders ds n)
  end.

(** The binary64 cost goes up: [Some true], or [None] when a cost raises. *)
Definition cost_increases (b : Beverage) (d : Decorator) : option bool :=
  match get_cost b, get_cost (wrap d b) with
  | Return c, Return c' => Some (c <? c')%float
  | _, _ => None
  end.

(** The add-ons of the menu, sugar by one to three teaspoons. *)
Definition menu : list Decorator := [Milk; Sugar 1; Sugar 2; Sugar 3; Whip; Caramel].

End CoffeeShop.

(** ** src/4_adapter/1_media_player/example.py *)

Module MediaPlayer.

Definition IO (A : Type) : Type := list string * result A.

(** [str.lower] on the letters A-Z.  Python lowers by the Unicode tables;
    outside A-Z only U+0130 and U+212A lower to text with an ASCII
    character (i and k), neither a character of the tags compared here, so
    the comparisons agree. *)
Definition lower_ascii (c : Ascii.ascii) : Ascii.ascii :=
  let n := Ascii.nat_of_ascii c in
  if (65 <=? n) && (n <=? 90) then Ascii.ascii_of_nat (n + 32) else c.

Fixpoint lower (s : string) : string :=
  match s with
  | EmptyString => EmptyString
  | String c s => String (lower_ascii c) (lower s)
  end.

(** The adaptees. *)
Definition play_mp3 (file_name : string) : IO string :=
  ([ "🎵 Playing MP3 file: " +:+ file_name ], Return ("MP3: " +:+ file_name)).
Definition play_mp4 (file_name : string) : IO string :=
  ([ "🎬 Playing MP4 file: " +:+ file_name ], Return ("MP4: " +:+ file_name)).
Definition play_vlc (file_name : string) : IO string :=
  ([ "🎥 Playing VLC file: " +:+ file_name ], Return ("VLC: " +:+ file_name)).

(** The adapters. *)
Definition Mp3Adapter_play (audio_type file_name : string) : IO string :=
  if decide (lower audio_type = "mp3") then play_mp3 file_name
  else ([], Raise (ValueError ("MP3 adapter cannot play " +:+ audio_type +:+ " files"))).

Definition Mp4Adapter_play (audio_type file_name : string) : IO string :=
  if decide (lower audio_type = "mp4") then play_mp4 file_name
  else ([], Raise (ValueError ("MP4 adapter cannot play " +:+ audio_type +:+ " files"))).

Definition VlcAdapter_play (audio_type file_name : string) : IO string :=
  if decide (lower audio_type = "vlc") then play_vlc file_name
  else ([], Raise (ValueError ("VLC adapter cannot play " +:+ audio_type +:+ " files"))).

(** class AudioPlayer *)
Definition play (audio_type file_name : string) : IO string :=
  let audio_type_lower := lower audio_type in
  if decide (audio_type_lower = "mp3") then Mp3Adapter_play audio_type file_name
  else if decide (audio_type_lower = "mp4") then Mp4Adapter_play audio_type file_name
  else if decide (audio_type_lower = "vlc") then VlcAdapter_play audio_type file_name
  else ([], Raise (ValueError ("Invalid media type: " +:+ audio_type))).

(** *** Vocabulary of the properties *)

(** Two tags are equal up to the case of their letters. *)
Definition same_ignoring_case (a b : string) : Prop := lower a = lower b.

End MediaPlayer.

(** ** src/3_observer/1_stock_market/example.py *)

Module StockMarket.

(** An observer object is named by its identity: the classes define no
    [__eq__], so [in] and [list.remove] compare by identity. *)
Abbreviation Observer := nat.

(** class StockPrice *)
Record StockPrice : Type := {
  _symbol : string;
  _price : float;
  _previous_price : float;
  _observers : list Observer
}.

(** What a method of the subject does besides updating it: printing a
    line, or calling [observer.update(symbol, price, change)]. *)
Inductive event : Type :=
| Print (line : string)
| Update (observer : Observer) (symbol : string) (price change : float).

Definition __init__ (symbol : string) (initial_price : float) : StockPrice :=
  {| _symbol := symbol; _price := initial_price;
     _previous_price := initial_price; _observers := [] |}.

(** [l.remove(x)]: the first item equal to [x] goes.  Python raises when
    there is none; every call below is guarded by [x in l]. *)
Fixpoint list_remove (x : Observer) (l : list Observer) : list Observer :=
  match l with
  | [] => []
  | y :: l => if decide (y = x) then l else y :: list_remove x l
  end.

Section Builtins.
(** [observer.__class__.__name__] and the format specification [.2f]. *)
Variable class_name : Observer -> string.
Variable fmt2 : float -> string.

Definition attach (self : StockPrice) (observer : Observer)
  : StockPrice * list event :=
  if decide (observer ∉ _observers self) then
    ({| _symbol := _symbol self; _price := _price self;
        _previous_price := _previous_price self;
        _observers := _observers self ++ [observer] |},
     [ Print ("  → " +:+ class_name observer +:+ " subscribed to "
                +:+ _symbol self) ])
  else (self, []).

Definition detach (self : StockPrice) (observer : Observer)
  : StockPrice * list event :=
  if decide (observer ∈ _observers self) then
    ({| _symbol := _symbol self; _price := _price self;
        _previous_price := _previous_price self;
        _observers := list_remove observer (_observers self) |},
     [ Print ("  → " +:+ class_name observer +:+ " unsubscribed from "
                +:+ _symbol self) ])
  else (self, []).

Definition notify (self : StockPrice) : list event :=
  let change := (_price self - _previous_price self)%float in
  map (fun observer => Update observer (_symbol self) (_price self) change)
      (_observers self).

Definition set_price (self : StockPrice) (new_price : float)
  : StockPrice * list event :=
  if negb (new_price =? _price self)%float then
    let self' :=
      {| _symbol := _symbol self; _price := new_price;
         _previous_price := _price self;
         _observers := _observers self |} in
    (self',
     Print ("
📈 " +:+ _symbol self' +:+ " price changed: $"
              +:+ fmt2 (_previous_price self') +:+ " → $"
              +:+ fmt2 (_price self')) :: notify self')
  else (self, []).

(** A call on the subject, and a sequence of calls from left to right. *)
Inductive call : Type :=
| Attach (observer : Observer)
| Detach (observer : Observer)
| SetPrice (new_price : float)
| Notify.

Definition step (self : StockPrice) (c : call) : StockPrice * list event :=
  match c with
  | Attach o => attach self o
  | Detach o => detach self o
  | SetPrice p => set_price self p
  | Notify => (self, notify self)
  end.

Fixpoint run (self : StockPrice) (cs : list call) : StockPrice * list event :=
  match cs with
  | [] => (self, [])
  | c :: cs =>
      let '(self1, out1) := step self c in
      let '(self2, out2) := run self1 cs in
      (self2, out1 ++ out2)
  end.
End Builtins.

(** The observers whose [update] a trace calls, in call order. *)
Fixpoint deliveries (out : list event) : list Observer :=
  match out with
  | [] => []
  | Update o _ _ _ :: out => o :: deliveries out
  | Print _ :: out => deliveries out
  end.

(** *** The observer classes *)

(** [x / y] on floats: Python raises [ZeroDivisionError] when [y] is zero,
    of either sign; [None] stands for that exception. *)
Definition truediv (x y : float) : option float :=
  if (y =? 0)%float then None else Some (x / y)%float.

(** The observers, with the fields their constructors set.  An [update]
    returns the lines it prints, or [None] when it ends in an exception. *)
Record Trader : Type := { trader_name : string; trader_threshold : float }.
Record Analyst : Type := {
  analyst_name : string;
  _price_history : gmap string (list float)
}.
Record MobileApp : Type := { _user_id : string }.
Record EmailNotifier : Type := { _email : string }.

(** [Analyst(name)] *)
Definition Analyst__init__ (name : string) : Analyst :=
  {| analyst_name := name; _price_history := ∅ |}.

Section Formats.
(** The format specifications [.2f] and [+.2f]. *)
Variable fmt2 : float -> string.
Variable fmt2_signed : float -> string.

(** [(change / (price - change)) * 100 if (price - change) > 0 else 0] *)
Definition change_percent (price change : float) : option float :=
  if (0 <? price - change)%float then
    match truediv change (price - change)%float with
    | Some q => Some (q * 100)%float
    | None => None
    end
  else Some 0%float.

Definition Trader_update (self : Trader) (symbol : string) (price change : float)
  : option (list string) :=
  match change_percent price change with
  | None => None
  | Some percent =>
      if (trader_threshold self * 100 <=? abs percent)%float then
        let direction :=
          if (0 <? change)%float then "📈 BUY SIGNAL" else "📉 SELL SIGNAL" in
        Some [ "  🔔 Trader " +:+ trader_name self +:+ ": " +:+ direction
                 +:+ " for " +:+ symbol +:+ "!";
               "     Change: " +:+ fmt2_signed percent +:+ "% ($"
                 +:+ fmt2_signed change +:+ ")" ]
      else Some []
  end.

Definition MobileApp_update (self : MobileApp) (symbol : string)
  (price change : float) : option (list string) :=
  match change_percent price change with
  | None => None
  | Some percent =>
      let emoji :=
        if (0 <? change)%float then "🟢"
        else if (change <? 0)%float then "🔴" else "⚪" in
      Some [ "  📱 Mobile App (" +:+ _user_id self +:+ "): " +:+ emoji +:+ " "
               +:+ symbol +:+ " $" +:+ fmt2 price +:+ " ("
               +:+ fmt2_signed percent +:+ "%)" ]
  end.

Definition EmailNotifier_update (self : EmailNotifier) (symbol : string)
  (price change : float) : option (list string) :=
  if (1.0 <? abs change)%float then
    let direction := if (0 <? change)%float then "increased" else "decreased" in
    Some [ "  📧 Email to " +:+ _email self +:+ ": " +:+ symbol +:+ " "
             +:+ direction +:+ " by $" +:+ fmt2 (abs change) ]
  else Some [].

(** [Analyst.update] also appends the price to the history of the symbol;
    it returns the analyst after the call.  [history[-1]], [history[-2]]
    and [history[-3]] are the first three items of the reversed history;
    [None] is the [IndexError] of a shorter history.  [sum] adds from 0,
    left to right, as CPython does up to 3.11; from 3.12 on it compensates
    the rounding errors of a float sum, which can move the printed average
    by a rounding error. *)
Definition Analyst_update (self : Analyst) (symbol : string)
  (price change : float) : option (Analyst * list string) :=
  let history := default [] (_price_history self !! symbol) ++ [price] in
  let self' :=
    {| analyst_name := analyst_name self;
       _price_history := <[symbol := history]> (_price_history self) |} in
  if decide (3 ≤ length history) then
    match reverse history with
    | h1 :: h2 :: h3 :: _ =>
        let trend :=
          if (h2 <? h1)%float && (h3 <? h2)%float
          then "📊 UPTREND" else "📊 DOWNTREND" in
        Some (self',
              [ "  📊 Analyst " +:+ analyst_name self +:+ ": " +:+ trend
                  +:+ " detected for " +:+ symbol;
                "     Current: $" +:+ fmt2 price +:+ ", 3-period avg: $"
                  +:+ fmt2 ((0 + h3 + h2 + h1) / 3)%float ])
    | _ => None
    end
  else Some (self', []).

(** Prices delivered to an analyst one after the other, as
    [(symbol, price, change)]. *)
Fixpoint Analyst_updates (self : Analyst) (ups : list (string * float * float))
  : option (Analyst * list string) :=
  match ups with
  | [] => Some (self, [])
  | (symbol, price, change) :: ups =>
      match Analyst_update self symbol price change with
      | Some (self1, out1) =>
          match Analyst_updates self1 ups with
          | Some (self2, out2) => Some (self2, out1 ++ out2)
          | None => None
          end
      | None => None
      end
  end.
End Formats.

(** The prices among [ups] that are for [symbol], in order. *)
Definition prices_for (symbol : string) (ups : list (string * float * float))
  : list float :=
  map (fun u => u.1.2) (filter (fun u => u.1.1 = symbol) ups).

(** *** Vocabulary of the properties *)

(** Who is subscribed after a sequence of calls, told from the calls
    alone: an observer joins at the end unless already in, and leaves
    on detach. *)
Fixpoint subscribed (acc : list Observer) (cs : list call) : list Observer :=
  match cs with
  | [] => acc
  | Attach o :: cs =>
      subscribed (if decide (o ∈ acc) then acc else acc ++ [o]) cs
  | Detach o :: cs => subscribed (filter (fun x => x ≠ o) acc) cs
  | _ :: cs => subscribed acc cs
  end.

End StockMarket.

(** ** src/6_state/1_vending_machine/example.py *)

Module VendingMachine.

Definition IO (A : Type) : Type := list string * result A.

Definition ret {A} (a : A) : IO A := ([], Return a).
Definition print (line : string) : IO unit := ([line], Return tt).
Definition raise {A} (e : exn) : IO A := ([], Raise e).
Definition bind {A B} (m : IO A) (k : A -> IO B) : IO B :=
  match m with
  | (out, Return a) => let '(out', r) := k a in (out ++ out', r)
  | (out, Raise e) => (out, Raise e)
  end.

Notation "x <- m ;; k" := (bind m (fun x => k))
  (at level 100, m at next level, right associativity).
Notation "m ;;; k" := (bind m (fun _ => k))
  (at level 100, right associativity).

(** The state classes carry no data: an instance is its class. *)
Inductive VendingState : Type :=
| NoMoneyState
| HasMoneyState
| SoldState
| SoldOutState.

(** An entry of [_products]: [{"price": ..., "stock": ...}]. *)
Record product_info : Type := { price : float; stock : Z }.

(** class VendingMachine; [_selected_product] is [None] or a name. *)
Record VendingMachine : Type := {
  _state : VendingState;
  _money : float;
  _selected_product : option string;
  _products : gmap string product_info
}.

Definition __init__ : VendingMachine :=
  {| _state := NoMoneyState;
     _money := 0.0;
     _selected_product := None;
     _products :=
       <["Coke" := {| price := 1.50; stock := 5 |}]>
       (<["Pepsi" := {| price := 1.50; stock := 3 |}]>
       (<["Chips" := {| price := 2.00; stock := 4 |}]>
       (<["Candy" := {| price := 1.00; stock := 0 |}]> ∅))) |}.

Definition set_state (m : VendingMachine) (state : VendingState) : VendingMachine :=
  {| _state := state; _money := _money m;
     _selected_product := _selected_product m; _products := _products m |}.
Definition get_state (m : VendingMachine) : VendingState := _state m.

Definition add_money (m : VendingMachine) (amount : float) : VendingMachine :=
  {| _state := _state m; _money := (_money m + amount)%float;
     _selected_product := _selected_product m; _products := _products m |}.
Definition set_money (m : VendingMachine) (amount : float) : VendingMachine :=
  {| _state := _state m; _money := amount;
     _selected_product := _selected_product m; _products := _products m |}.
Definition get_money (m : VendingMachine) : float := _money m.

Definition set_selected_product (m : VendingMachine) (product : option string)
  : VendingMachine :=
  {| _state := _state m; _money := _money m;
     _selected_product := product; _products := _products m |}.
Definition get_selected_product (m : VendingMachine) : option string :=
  _selected_product m.

(** [product] may be [None] (what [get_selected_product] returns before
    any selection); [None] is no key of the table. *)
Definition entry (m : VendingMachine) (product : option string)
  : option product_info :=
  match product with
  | Some name => _products m !! name
  | None => None
  end.

Definition get_product_price (m : VendingMachine) (product : option string)
  : option float :=
  match entry m product with
  | Some info => Some (price info)
  | None => None
  end.

Definition has_product (m : VendingMachine) (product : option string) : bool :=
  match entry m product with
  | Some info => bool_decide (stock info > 0)%Z
  | None => false
  end.

Definition remove_product (m : VendingMachine) (product : option string)
  : VendingMachine :=
  match product, entry m product with
  | Some name, Some info =>
      {| _state := _state m; _money := _money m;
         _selected_product := _selected_product m;
         _products := <[name := {| price := price info;
                                   stock := stock info - 1 |}]> (_products m) |}
  | _, _ => m
  end.

(** [str(product)] inside an f-string. *)
Definition str (product : option string) : string :=
  match product with
  | Some name => name
  | None => "None"
  end.

Section Builtins.
(** The format specification [.2f]. *)
Variable fmt2 : float -> string.

(** class NoMoneyState *)
Definition NoMoneyState_insert_money (machine : VendingMachine) (amount : float)
  : IO VendingMachine :=
  print ("💰 Inserted $" +:+ fmt2 amount) ;;;
  let machine := add_money machine amount in
  ret (set_state machine HasMoneyState).

Definition NoMoneyState_eject_money (machine : VendingMachine)
  : IO VendingMachine :=
  print "❌ No money to eject" ;;; ret machine.

Definition NoMoneyState_select_product (machine : VendingMachine)
  (product : string) : IO VendingMachine :=
  print "❌ Please insert money first" ;;; ret machine.

Definition NoMoneyState_dispense (machine : VendingMachine)
  : IO VendingMachine :=
  print "❌ Please insert money first" ;;; ret machine.

(** class HasMoneyState *)
Definition HasMoneyState_insert_money (machine : VendingMachine) (amount : float)
  : IO VendingMachine :=
  print ("💰 Inserted additional $" +:+ fmt2 amount) ;;;
  ret (add_money machine amount).

Definition HasMoneyState_eject_money (machine : VendingMachine)
  : IO VendingMachine :=
  let money := get_money machine in
  print ("💰 Ejecting $" +:+ fmt2 money) ;;;
  let machine := set_money machine 0 in
  ret (set_state machine NoMoneyState).

Definition HasMoneyState_select_product (machine : VendingMachine)
  (product : string) : IO VendingMachine :=
  match get_product_price machine (Some product) with
  | None =>
      print ("❌ Product '" +:+ product +:+ "' not available") ;;;
      ret machine
  | Some price =>
      if (price <=? get_money machine)%float then
        print ("✅ Selected " +:+ product +:+ " ($" +:+ fmt2 price +:+ ")") ;;;
        let machine := set_selected_product machine (Some product) in
        ret (set_state machine SoldState)
      else
        let needed := (price - get_money machine)%float in
        print ("❌ Insufficient funds. Need $" +:+ fmt2 needed +:+ " more") ;;;
        ret machine
  end.

Definition HasMoneyState_dispense (machine : VendingMachine)
  : IO VendingMachine :=
  print "❌ Please select a product first" ;;; ret machine.

(** class SoldState *)
Definition SoldState_insert_money (machine : VendingMachine) (amount : float)
  : IO VendingMachine :=
  print "⏳ Please wait, processing your order..." ;;; ret machine.

Definition SoldState_eject_money (machine : VendingMachine)
  : IO VendingMachine :=
  print "⏳ Cannot eject money, product already selected" ;;; ret machine.

Definition SoldState_select_product (machine : VendingMachine)
  (product : string) : IO VendingMachine :=
  print "⏳ Please wait, processing your order..." ;;; ret machine.

Definition SoldState_dispense (machine : VendingMachine) : IO VendingMachine :=
  let product := get_selected_product machine in
  let price := get_product_price machine product in
  let money := get_money machine in
  if has_product machine product then
    print ("🎉 Dispensing " +:+ str product +:+ "...") ;;;
    let machine := remove_product machine product in
    change <- match price with
              | Some price => ret (money - price)%float
              | None => raise (TypeError
                  "unsupported operand type(s) for -: 'float' and 'NoneType'")
              end ;;
    (if (0 <? change)%float
     then print ("💰 Returning change: $" +:+ fmt2 change)
     else ret tt) ;;;
    let machine := set_money machine 0 in
    let machine := set_selected_product machine None in
    ret (set_state machine NoMoneyState)
  else
    print ("❌ " +:+ str product +:+ " is out of stock") ;;;
    ret (set_state machine NoMoneyState).

(** class SoldOutState *)
Definition SoldOutState_insert_money (machine : VendingMachine) (amount : float)
  : IO VendingMachine :=
  print "❌ Machine is out of products" ;;; ret machine.

Definition SoldOutState_eject_money (machine : VendingMachine)
  : IO VendingMachine :=
  let money := get_money machine in
  machine <- (if (0 <? money)%float
              then print ("💰 Ejecting $" +:+ fmt2 money) ;;;
                   ret (set_money machine 0)
              else ret machine) ;;
  ret (set_state machine NoMoneyState).

Definition SoldOutState_select_product (machine : VendingMachine)
  (product : string) : IO VendingMachine :=
  print "❌ Machine is out of products" ;;; ret machine.

Definition SoldOutState_dispense (machine : VendingMachine)
  : IO VendingMachine :=
  print "❌ Machine is out of products" ;;; ret machine.

(** The context's operations delegate to the current state. *)
Definition insert_money (self : VendingMachine) (amount : float)
  : IO VendingMachine :=
  match _state self with
  | NoMoneyState => NoMoneyState_insert_money self amount
  | HasMoneyState => HasMoneyState_insert_money self amount
  | SoldState => SoldState_insert_money self amount
  | SoldOutState => SoldOutState_insert_money self amount
  end.

Definition eject_money (self : VendingMachine) : IO VendingMachine :=
  match _state self with
  | NoMoneyState => NoMoneyState_eject_money self
  | HasMoneyState => HasMoneyState_eject_money self
  | SoldState => SoldState_eject_money self
  | SoldOutState => SoldOutState_eject_money self
  end.

Definition select_product (self : VendingMachine) (product : string)
  : IO VendingMachine :=
  match _state self with
  | NoMoneyState => NoMoneyState_select_product self product
  | HasMoneyState => HasMoneyState_select_product self product
  | SoldState => SoldState_select_product self product
  | SoldOutState => SoldOutState_select_product self product
  end.

Definition dispense (self : VendingMachine) : IO VendingMachine :=
  match _state self with
  | NoMoneyState => NoMoneyState_dispense self
  | HasMoneyState => HasMoneyState_dispense self
  | SoldState => SoldState_dispense self
  | SoldOutState => SoldOutState_dispense self
  end.
End Builtins.

(** *** Vocabulary of the properties *)

(** The machine after [insert_money(1.00)] on a new machine. *)
Definition funded : VendingMachine :=
  set_state (add_money __init__ 1.00) HasMoneyState.

(** A call on the machine, and a sequence of calls from left to right; a
    call that raises ends the sequence. *)
Inductive call : Type :=
| InsertMoney (amount : float)
| EjectMoney
| SelectProduct (product : string)
| Dispense.

Definition step (fmt2 : float -> string) (self : VendingMachine) (c : call)
  : IO VendingMachine :=
  match c with
  | InsertMoney amount => insert_money fmt2 self amount
  | EjectMoney => eject_money fmt2 self
  | SelectProduct product => select_product fmt2 self product
  | Dispense => dispense fmt2 self
  end.

Fixpoint run (fmt2 : float -> string) (self : VendingMachine) (cs : list call)
  : IO VendingMachine :=
  match cs with
  | [] => ret self
  | c :: cs => self' <- step fmt2 self c ;; run fmt2 self' cs
  end.

(** The entry of a product after one unit left the stock. *)
Definition one_less (info : product_info) : product_info :=
  {| price := price info; stock := stock info - 1 |}.

(** In [SoldState] the selection is a listed product whose price the money
    in the machine covers. *)
Definition paid (m : VendingMachine) : Prop :=
  _state m = SoldState →
  ∃ product info,
    _selected_product m = Some product
    ∧ _products m !! product = Some info
    ∧ (price info <=? _money m)%float = true.

(** The table of [m'] is the table of [m], or the table of [m] with one
    unit less of the selection of [m], which was in stock. *)
Definition same_or_one_sold (m m' : VendingMachine) : Prop :=
  _products m' = _products m
  ∨ ∃ product info,
      _state m = SoldState
      ∧ _selected_product m = Some product
      ∧ _products m !! product = Some info
      ∧ (0 < stock info)%Z
      ∧ _products m' = <[product := one_less info]> (_products m).

(** From [m] to [m'] the table keeps its products and their prices, and
    no stock goes up, or below zero if it was not. *)
Definition inventory_kept (m m' : VendingMachine) : Prop :=
  ∀ product,
    match _products m !! product with
    | None => _products m' !! product = None
    | Some info =>
        ∃ info', _products m' !! product = Some info'
                 ∧ price info' = price info
                 ∧ (stock info' ≤ stock info)%Z
                 ∧ (0 ≤ stock info → 0 ≤ stock info')%Z
    end.

End VendingMachine.

(** ** src/7_composite/1_file_system/example.py *)

Module FileSystem.

(** Items are objects in a store; a folder holds references to its
    children, so an item changed after it was added is seen changed from
    every folder that holds it. *)
Abbreviation ref := nat.

Inductive FileSystemItem : Type :=
| File (_name : string) (_size : Z)
| Folder (_name : string) (_children : list ref).

Abbreviation store := (list FileSystemItem).

(** [File(name, size)] and [Folder(name)] *)
Definition new_File (name : string) (size : Z) (h : store) : ref * store :=
  (length h, h ++ [File name size]).
Definition new_Folder (name : string) (h : store) : ref * store :=
  (length h, h ++ [Folder name []]).

Definition get_name (h : store) (self : ref) : option string :=
  match h !! self with
  | Some (File name _) => Some name
  | Some (Folder name _) => Some name
  | None => None
  end.

(** [for child in children: total += child.get_size()], for any way
    [size_of] of asking a child. *)
Fixpoint accumulate (size_of : ref -> option Z) (children : list ref) (total : Z)
  : option Z :=
  match children with
  | [] => Some total
  | child :: children =>
      match size_of child with
      | Some s => accumulate size_of children (total + s)
      | None => None
      end
  end.

(** [fuel] bounds the depth of the recursion; [None] is a run that
    exhausted it or followed a reference that names no object. *)
Fixpoint get_size (fuel : nat) (h : store) (self : ref) : option Z :=
  match fuel with
  | O => None
  | S fuel =>
      match h !! self with
      | Some (File _ size) => Some size
      | Some (Folder _ children) => accumulate (get_size fuel h) children 0
      | None => None
      end
  end.

(** [Folder.add] and [Folder.remove]; [File] has neither. *)
Definition add (h : store) (self item : ref) : option store :=
  match h !! self with
  | Some (Folder name children) =>
      Some (<[self := Folder name (children ++ [item])]> h)
  | _ => None
  end.

Fixpoint list_remove (x : ref) (l : list ref) : list ref :=
  match l with
  | [] => []
  | y :: l => if decide (y = x) then l else y :: list_remove x l
  end.

Definition remove (h : store) (self item : ref) : option store :=
  match h !! self with
  | Some (Folder name children) =>
      if decide (item ∈ children)
      then Some (<[self := Folder name (list_remove item children)]> h)
      else Some h
  | _ => None
  end.

Definition get_children (h : store) (self : ref) : option (list ref) :=
  match h !! self with
  | Some (Folder _ children) => Some children
  | _ => None
  end.

(** ["  " * indent]: nothing for an [indent] of zero or less. *)
Definition prefix (indent : Z) : string :=
  foldr (fun s acc => s +:+ acc) "" (replicate (Z.to_nat indent) "  ").

Definition newline : string := String (Ascii.ascii_of_nat 10) "".

(** [display]: a file gives one line; a folder gives its own line, with
    the total [get_size] computes, then what each child displays one level
    deeper, joined by newlines.  [fuel] bounds the depth of the calls, as
    in [get_size]. *)
Fixpoint display (fuel : nat) (h : store) (self : ref) (indent : Z)
  : option string :=
  match fuel with
  | O => None
  | S fuel =>
      match h !! self with
      | Some (File name size) =>
          Some (prefix indent +:+ "📄 " +:+ name +:+ " (" +:+ pretty size +:+ " bytes)")
      | Some (Folder name children) =>
          total ← get_size fuel h self;
          rest ← mapM (fun child => display fuel h child (indent + 1)) children;
          Some (String.concat newline
                  ((prefix indent +:+ "📁 " +:+ name +:+ "/ ("
                      +:+ pretty total +:+ " bytes total)") :: rest))
      | None => None
      end
  end.

(** *** Vocabulary of the properties *)

(** A finite tree of items, each with the reference it sits at: what a
    reference unfolds to when following children never comes back to a
    folder already entered. *)
Inductive tree : Type :=
| Leaf (r : ref) (name : string) (size : Z)
| Node (r : ref) (name : string) (children : list tree).

Inductive unfolds (h : store) : ref -> tree -> Prop :=
| unfolds_File r name size :
    h !! r = Some (File name size) ->
    unfolds h r (Leaf r name size)
| unfolds_Folder r name children ts :
    h !! r = Some (Folder name children) ->
    Forall2 (unfolds h) children ts ->
    unfolds h r (Node r name ts).

Definition Z_sum (l : list Z) : Z := foldr Z.add 0%Z l.

(** The sizes of the files of a tree, left to right. *)
Fixpoint file_sizes (t : tree) : list Z :=
  match t with
  | Leaf _ _ size => [size]
  | Node _ _ ts => concat (map file_sizes ts)
  end.

(** Nesting depth: 1 for a file or an empty folder. *)
Fixpoint height (t : tree) : nat :=
  match t with
  | Leaf _ _ _ => 1
  | Node _ _ ts => S (foldr (fun t n => height t `max` n) 0 ts)
  end.

(** The references of the items of a tree. *)
Fixpoint refs (t : tree) : list ref :=
  match t with
  | Leaf r _ _ => [r]
  | Node r _ ts => r :: concat (map refs ts)
  end.

(** The tree [t] after [ti] became the last child of every folder of [t]
    that sits at [sub]. *)
Fixpoint graft (sub : ref) (ti : tree) (t : tree) : tree :=
  match t with
  | Leaf r name size => Leaf r name size
  | Node r name ts =>
      Node r name (map (graft sub ti) ts ++ (if decide (r = sub) then [ti] else []))
  end.

(** How many items of [t] sit at [r]: more than one when a folder is held
    by several folders. *)
Definition occurrences (r : ref) (t : tree) : nat :=
  length (filter (fun x => x = r) (refs t)).

(** One line for each item of a tree, a folder before its children and
    the children in order, each item indented by its depth. *)
Fixpoint lines (indent : Z) (t : tree) : list string :=
  match t with
  | Leaf _ name size =>
      [ prefix indent +:+ "📄 " +:+ name +:+ " (" +:+ pretty size +:+ " bytes)" ]
  | Node _ name ts =>
      (prefix indent +:+ "📁 " +:+ name +:+ "/ ("
         +:+ pretty (Z_sum (concat (map file_sizes ts))) +:+ " bytes total)")
      :: concat (map (lines (indent + 1)) ts)
  end.

(** Part of the tree of the demonstration, built as the script builds it:
    the root holds the documents folder, with its two files, and a readme
    file. *)
Definition documents_demo : option (ref * store) :=
  let '(root, h) := new_Folder "root" [] in
  let '(documents, h) := new_Folder "Documents" h in
  let '(resume, h) := new_File "resume.pdf" 245760 h in
  h ← add h documents resume;
  let '(letter, h) := new_File "cover_letter.docx" 15360 h in
  h ← add h documents letter;
  h ← add h root documents;
  let '(readme, h) := new_File "readme.txt" 512 h in
  h ← add h root readme;
  Some (root, h).

Definition documents_store : store :=
  [ Folder "root" [1; 4];
    Folder "Documents" [2; 3];
    File "resume.pdf" 245760;
    File "cover_letter.docx" 15360;
    File "readme.txt" 512 ].

Definition documents_tree : tree :=
  Node 0 "root"
    [ Node 1 "Documents"
        [ Leaf 2 "resume.pdf" 245760; Leaf 3 "cover_letter.docx" 15360 ];
      Leaf 4 "readme.txt" 512 ].

End FileSystem.

(** ** Binary64 arithmetic: vocabulary

    The operations on [float] are specified by the functions of
    [SpecFloat] on a sign, a mantissa and an exponent.  The definitions
    below name the exact values those stand for. *)

Module Binary64.
#[local] Open Scope Z_scope.






End Binary64.

(* ===================================================================== *)
(** * Part II.  Verification                                              *)
(* ===================================================================== *)

(** ** Strategy contexts: the unconfigured error *)

Module StrategySpec.

Lemma payment_cleared_strategy k :
  Payment._strategy (Payment.cleared k (Payment.__init__ None)) = None.
Proof. destruct k; reflexivity. Qed.

Lemma sorter_cleared_strategy k :
  Sorting._strategy (Sorting.cleared k (Sorting.__init__ None)) = None.
Proof. destruct k; reflexivity. Qed.

(** C3.  A context built with no strategy, and given none since, raises
    [ValueError] on its operation, printing and storing nothing; a context
    that holds a strategy returns exactly what the strategy's method
    returns. *)
Theorem context_without_strategy_raises :
  (∀ k amount,
      Payment.process_payment (Payment.cleared k (Payment.__init__ None)) amount
      = ([], Raise (ValueError "No payment strategy set")))
  ∧ (∀ k fuel data h,
      Sorting.sort_data (Sorting.cleared k (Sorting.__init__ None)) fuel data h
      = Sorting.Err (ValueError "No sorting strategy set"))
  ∧ (∀ self s amount,
      Payment.process_payment (Payment.__init__ (Some s)) amount
      = Payment.pay s amount
      ∧ Payment.process_payment (Payment.set_strategy self (Some s)) amount
        = Payment.pay s amount)
  ∧ (∀ self s fuel data h,
      Sorting.sort_data (Sorting.__init__ (Some s)) fuel data h
      = Sorting.sort s fuel data h
      ∧ Sorting.sort_data (Sorting.set_strategy self (Some s)) fuel data h
        = Sorting.sort s fuel data h).
Proof.
  repeat split.
  - intros k amount. unfold Payment.process_payment.
    now rewrite payment_cleared_strategy.
  - intros k fuel data h. unfold Sorting.sort_data.
    now rewrite sorter_cleared_strategy.
Qed.

End StrategySpec.

(** ** Binary64 arithmetic: rounding and order

    [SpecFloat] gives the operations as programs on mantissas; the lemmas
    below derive from them what the properties of the costs need: the
    result of a rounding lies between the binary64 values around the exact
    result, and the comparison of two values is the comparison of what
    they stand for. *)

Module Binary64Facts.
Import Binary64.
#[local] Open Scope Z_scope.

(** *** Powers and digits *)








(** *** Shifting right *)







(** *** Rounding to nearest *)







(** *** Alignment: [binary_round] and [binary_normalize] *)








(** *** The order of binary64 values *)






(** *** Sums *)







(** *** Primitive floats *)







End Binary64Facts.

(** ** Decorator: the coffee shop *)

(** *** The arithmetic of the surcharges *)

Module CoffeeShopFloat.
Import Binary64 Binary64Facts CoffeeShop.
#[local] Open Scope Z_scope.








End CoffeeShopFloat.

Module CoffeeShopSpec.
Import CoffeeShop.

Lemma description_wrap d b :
  get_description (wrap d b) = get_description b +:+ suffix d.
Proof. destruct d; reflexivity. Qed.

Lemma string_app_assoc (s t u : string) : (s +:+ t) +:+ u = s +:+ (t +:+ u).
Proof.
  induction s as [|c s IH]; [reflexivity|].
  change (String c ((s +:+ t) +:+ u) = String c (s +:+ (t +:+ u))).
  now f_equal.
Qed.

Lemma string_app_empty (s : string) : s +:+ "" = s.
Proof.
  induction s as [|c s IH]; [reflexivity|].
  change (String c (s +:+ "") = String c s). now f_equal.
Qed.

(** The description names the wrapped beverage, then the add-ons in the
    order in which they were wrapped around it. *)
Lemma description_foldl ds : ∀ b,
  get_description (foldl (fun b d => wrap d b) b ds)
  = get_description b +:+ foldr (fun d s => suffix d +:+ s) "" ds.
Proof.
  induction ds as [|d ds IH]; intros b; cbn [foldl foldr].
  - now rewrite string_app_empty.
  - now rewrite IH, description_wrap, string_app_assoc.
Qed.

(** C5.  [SugarDecorator(MilkDecorator(Espresso()), teaspoons=2)] costs
    3.20, as a binary64 value and as an exact amount, and is described as
    "Espresso, Milk, 2 tsp Sugar"; the description of any order lists the
    espresso and then the add-ons in construction order, innermost first. *)
Theorem espresso_milk_sugar2 :
  coffee2 = build [Milk; Sugar 2]
  ∧ get_cost Espresso = Return 2.50%float
  ∧ get_cost coffee2 = Return 3.20%float
  ∧ (get_cost_exact coffee2 == 320 # 100)%Q
  ∧ get_description coffee2 = "Espresso, Milk, 2 tsp Sugar"
  ∧ ∀ ds, get_description (build ds)
          = "Espresso" +:+ foldr (fun d s => suffix d +:+ s) "" ds.
Proof.
  repeat split. intros ds. apply (description_foldl ds Espresso).
Qed.



(** For the orders of at most four add-ons of the menu, the cost
    [get_cost] returns is the exact amount of the price list up to
    10^-12. *)
Lemma menu_costs_near_exact :
  forallb (cost_near_exact (1 # 1000000000000)) (orders menu 4) = true.
Proof. vm_compute. reflexivity. Qed.

(** Binary64 addition can absorb a surcharge: after sugar by 10^17
    teaspoons the cost is 10000000000000002, and milk on top leaves it
    there. *)
Lemma large_cost_absorbs_milk :
  get_cost (SugarDecorator Espresso (10 ^ 17)) = Return 10000000000000002%float
  ∧ cost_increases (SugarDecorator Espresso (10 ^ 17)) Milk = Some false.
Proof. split; reflexivity. Qed.





End CoffeeShopSpec.

(** ** Adapter: the media player *)

Module MediaPlayerSpec.
Import MediaPlayer.

Lemma lower_tags : lower "mp3" = "mp3" ∧ lower "mp4" = "mp4" ∧ lower "vlc" = "vlc".
Proof. repeat split. Qed.

(** C8.  A tag that is none of "mp3", "mp4", "vlc" up to case makes
    [AudioPlayer.play] raise [ValueError] with the tag in the message and
    print nothing (no adaptee ran); a tag that is one of them up to case
    runs that format's adaptee, and only it. *)
Theorem play_dispatch (audio_type file_name : string) :
  (¬ same_ignoring_case audio_type "mp3" →
   ¬ same_ignoring_case audio_type "mp4" →
   ¬ same_ignoring_case audio_type "vlc" →
   play audio_type file_name
   = ([], Raise (ValueError ("Invalid media type: " +:+ audio_type))))
  ∧ (same_ignoring_case audio_type "mp3" →
     play audio_type file_name = play_mp3 file_name)
  ∧ (same_ignoring_case audio_type "mp4" →
     play audio_type file_name = play_mp4 file_name)
  ∧ (same_ignoring_case audio_type "vlc" →
     play audio_type file_name = play_vlc file_name).
Proof.
  unfold same_ignoring_case, play, Mp3Adapter_play, Mp4Adapter_play,
    VlcAdapter_play.
  destruct lower_tags as (-> & -> & ->).
  destruct (decide (lower audio_type = "mp3")) as [E3|N3];
    destruct (decide (lower audio_type = "mp4")) as [E4|N4];
    destruct (decide (lower audio_type = "vlc")) as [Ev|Nv];
    repeat split; intros; congruence.
Qed.

Lemma play_dispatch_witness :
  play "avi" "video.avi" = ([], Raise (ValueError "Invalid media type: avi"))
  ∧ play "MP3" "song.mp3" = (["🎵 Playing MP3 file: song.mp3"], Return "MP3: song.mp3")
  ∧ play "Mp4" "movie.mp4" = (["🎬 Playing MP4 file: movie.mp4"], Return "MP4: movie.mp4")
  ∧ play "vLC" "video.vlc" = (["🎥 Playing VLC file: video.vlc"], Return "VLC: video.vlc").
Proof.
  split; [|split; [|split]].
  - apply (proj1 (play_dispatch "avi" "video.avi")); vm_compute; discriminate.
  - apply (proj1 (proj2 (play_dispatch "MP3" "song.mp3"))). reflexivity.
  - apply (proj1 (proj2 (proj2 (play_dispatch "Mp4" "movie.mp4")))). reflexivity.
  - apply (proj2 (proj2 (proj2 (play_dispatch "vLC" "video.vlc")))). reflexivity.
Defined.

End MediaPlayerSpec.

(** ** Observer: the stock price and its subscribers *)

Module StockMarketSpec.
Import StockMarket.

(** [notify] calls [update] on the subscribers, in list order. *)
Lemma deliveries_notify self : deliveries (notify self) = _observers self.
Proof.
  unfold notify. induction (_observers self) as [|o l IH]; simpl; congruence.
Qed.

Lemma list_remove_absent o l : o ∉ l → list_remove o l = l.
Proof.
  induction l as [|y l IH]; simpl; [reflexivity|].
  intros H. apply not_elem_of_cons in H as [Hne Hl].
  destruct (decide (y = o)); [congruence | now rewrite IH].
Qed.

(** Without duplicates, removing the first occurrence removes them all. *)
Lemma list_remove_filter o l :
  NoDup l → list_remove o l = filter (fun x => x ≠ o) l.
Proof.
  induction 1 as [|y l Hy Hl IH]; simpl; [reflexivity|].
  destruct (decide (y = o)) as [->|Hne].
  - rewrite filter_cons_False by (intros H; now apply H).
    rewrite <- IH. symmetry. now apply list_remove_absent.
  - rewrite filter_cons_True by exact Hne. now rewrite IH.
Qed.

Lemma filter_absent (o : Observer) l : o ∉ l → filter (fun x => x = o) l = [].
Proof.
  induction l as [|y l IH]; [reflexivity|].
  intros H. apply not_elem_of_cons in H as [Hne Hl].
  rewrite filter_cons_False by congruence. now apply IH.
Qed.

(** A duplicate-free list holds each of its members once. *)
Lemma filter_once (o : Observer) l :
  NoDup l → o ∈ l → length (filter (fun x => x = o) l) = 1.
Proof.
  induction 1 as [|y l Hy Hl IH]; intros Hin.
  - now apply not_elem_of_nil in Hin.
  - destruct (decide (y = o)) as [->|Hne].
    + rewrite filter_cons_True by reflexivity.
      now rewrite filter_absent.
    + rewrite filter_cons_False by exact Hne.
      apply IH. apply elem_of_cons in Hin as [?|?]; congruence.
Qed.

Lemma list_remove_NoDup o l : NoDup l → NoDup (list_remove o l).
Proof.
  intros H. rewrite list_remove_filter by exact H. now apply NoDup_filter.
Qed.

Section Builtins.
Variable class_name : Observer -> string.
Variable fmt2 : float -> string.

#[local] Abbreviation attach := (attach class_name).
#[local] Abbreviation detach := (detach class_name).
#[local] Abbreviation step := (step class_name fmt2).
#[local] Abbreviation run := (run class_name fmt2).

Lemma attach_observers self o :
  _observers (attach self o).1
  = if decide (o ∈ _observers self) then _observers self
    else _observers self ++ [o].
Proof.
  unfold attach.
  destruct (decide (o ∉ _observers self)) as [Hn|Hn];
    destruct (decide (o ∈ _observers self)) as [Hi|Hi];
    simpl; try reflexivity; tauto.
Qed.

Lemma detach_observers self o :
  _observers (detach self o).1 = list_remove o (_observers self).
Proof.
  unfold detach. destruct (decide (o ∈ _observers self)) as [Hi|Hn]; simpl.
  - reflexivity.
  - symmetry. now apply list_remove_absent.
Qed.

(** The subscriber list never holds an observer twice. *)
Lemma step_NoDup self c :
  NoDup (_observers self) → NoDup (_observers (step self c).1).
Proof.
  intros H. destruct c as [o|o|p|]; simpl.
  - rewrite attach_observers. destruct (decide (o ∈ _observers self)).
    + exact H.
    + apply NoDup_app. split; [exact H|]. split.
      * intros x Hx Hx'. apply list_elem_of_singleton in Hx'. now subst.
      * apply NoDup_singleton.
  - rewrite detach_observers. now apply list_remove_NoDup.
  - unfold set_price. destruct (negb _); exact H.
  - exact H.
Qed.

Lemma run_NoDup cs self :
  NoDup (_observers self) → NoDup (_observers (run self cs).1).
Proof.
  revert self. induction cs as [|c cs IH]; intros self H; simpl; [exact H|].
  pose proof (step_NoDup self c H) as H1.
  destruct (step self c) as [self1 out1].
  specialize (IH self1 H1).
  destruct (run self1 cs) as [self2 out2]. exact IH.
Qed.

Lemma run_subscribed cs self :
  NoDup (_observers self) →
  _observers (run self cs).1 = subscribed (_observers self) cs.
Proof.
  revert self. induction cs as [|c cs IH]; intros self H; simpl; [reflexivity|].
  pose proof (step_NoDup self c H) as H1.
  assert (Hs : subscribed (_observers (step self c).1) cs
               = subscribed (_observers self) (c :: cs)).
  { destruct c as [o|o|p|]; simpl.
    - now rewrite attach_observers.
    - now rewrite detach_observers, list_remove_filter.
    - unfold set_price. now destruct (negb _).
    - reflexivity. }
  destruct (step self c) as [self1 out1].
  specialize (IH self1 H1).
  destruct (run self1 cs) as [self2 out2]. simpl in *. congruence.
Qed.

(** C7.  On a subject brought by any sequence of calls from its
    construction: after attaching [o] twice, a [notify] calls [o]'s
    update exactly once; after detaching [o], a [notify] calls the
    updates of the subscribers other than [o], in their order, and not
    [o]'s; detaching an observer that is not subscribed changes nothing
    and prints nothing; and the subscribers are called in the order in
    which they joined. *)
Theorem observer_delivery (symbol : string) (initial_price : float)
  (cs : list call) (o : Observer) :
  let self := (run (__init__ symbol initial_price) cs).1 in
  let twice := (attach (attach self o).1 o).1 in
  let without := (detach self o).1 in
  length (filter (fun x => x = o) (deliveries (notify twice))) = 1
  ∧ deliveries (notify without)
    = filter (fun x => x ≠ o) (deliveries (notify self))
  ∧ (o ∉ deliveries (notify without))
  ∧ (o ∉ _observers self → detach self o = (self, []))
  ∧ deliveries (notify self) = subscribed [] cs.
Proof.
  intros self twice without.
  assert (Hnd : NoDup (_observers self)).
  { apply run_NoDup. simpl. apply NoDup_nil_2. }
  assert (Hw : deliveries (notify without)
               = filter (fun x => x ≠ o) (deliveries (notify self))).
  { subst without. rewrite !deliveries_notify, detach_observers.
    now apply list_remove_filter. }
  split; [|split; [exact Hw | split; [|split]]].
  - subst twice. rewrite deliveries_notify, !attach_observers.
    destruct (decide (o ∈ _observers self)) as [Hi|Hn].
    + rewrite decide_True by exact Hi. now apply filter_once.
    + rewrite decide_True by (apply elem_of_app; right; apply list_elem_of_here).
      apply filter_once.
      * apply NoDup_app. split; [exact Hnd|]. split.
        -- intros x Hx Hx'. apply list_elem_of_singleton in Hx'. now subst.
        -- apply NoDup_singleton.
      * apply elem_of_app; right; apply list_elem_of_here.
  - rewrite Hw. intros Hin. apply list_elem_of_filter in Hin. tauto.
  - intros Hn. unfold detach. now rewrite decide_False.
  - rewrite deliveries_notify. subst self.
    rewrite run_subscribed by (simpl; apply NoDup_nil_2). reflexivity.
Qed.

End Builtins.

Lemma observer_delivery_witness :
  let self :=
    (run (fun _ => "Trader") (fun _ => "?") (__init__ "AAPL" 150)
         [Attach 1; Attach 2; Attach 3; SetPrice 152.5]).1 in
  let twice :=
    (attach (fun _ => "Trader") (attach (fun _ => "Trader") self 2).1 2).1 in
  let without := (detach (fun _ => "Trader") self 2).1 in
  length (filter (fun x => x = 2) (deliveries (notify twice))) = 1
  ∧ deliveries (notify without)
    = filter (fun x => x ≠ 2) (deliveries (notify self))
  ∧ (2 ∉ deliveries (notify without))
  ∧ (2 ∉ _observers self → detach (fun _ => "Trader") self 2 = (self, []))
  ∧ deliveries (notify self)
    = subscribed [] [Attach 1; Attach 2; Attach 3; SetPrice 152.5].
Proof.
  exact (observer_delivery (fun _ => "Trader") (fun _ => "?") "AAPL" 150
           [Attach 1; Attach 2; Attach 3; SetPrice 152.5] 2).
Defined.

End StockMarketSpec.

(** ** State: the vending machine *)

Module VendingMachineSpec.
Import VendingMachine.

(** Comparison of binary64 values: [x < y] excludes [y <= x]; both are
    false when an operand is a NaN. *)
Lemma SFcompare_Lt_Gt (a b : spec_float) :
  SFcompare a b = Some Lt → SFcompare b a = Some Gt.
Proof.
  destruct a as [sa|sa| |sa ma ea], b as [sb|sb| |sb mb eb]; simpl;
    try discriminate; try (destruct sa, sb; simpl; congruence);
    try (destruct sa; simpl; congruence); try (destruct sb; simpl; congruence).
  change (Pos.compare_cont Eq mb ma) with (Pos.compare_cont (CompOpp Eq) mb ma).
  rewrite <- (Pos.compare_cont_antisym ma mb Eq), (Z.compare_antisym ea eb).
  destruct sa, sb; simpl; try congruence;
    destruct (ea ?= eb)%Z; simpl; try congruence;
    destruct (Pos.compare_cont Eq ma mb); simpl; congruence.
Qed.

Lemma float_ltb_leb (x y : float) :
  (x <? y)%float = true → (y <=? x)%float = false.
Proof.
  rewrite ltb_spec, leb_spec. unfold SFltb, SFleb.
  destruct (SFcompare (Prim2SF x) (Prim2SF y)) as [[| |]|] eqn:E;
    try discriminate.
  intros _. now rewrite (SFcompare_Lt_Gt _ _ E).
Qed.

Section Builtins.
Variable fmt2 : float -> string.

#[local] Abbreviation insert_money := (insert_money fmt2).
#[local] Abbreviation eject_money := (eject_money fmt2).
#[local] Abbreviation select_product := (select_product fmt2).
#[local] Abbreviation dispense := (dispense fmt2).

(** C4.  With money inserted, selecting a stocked product that costs more
    than the money in the machine prints the one line that names the
    shortfall, price minus money, and returns the machine as it was: same
    state [HasMoneyState], same money, same selection, same stock. *)
Theorem insufficient_funds_keeps_machine (m : VendingMachine)
  (product : string) (info : product_info) :
  _state m = HasMoneyState →
  _products m !! product = Some info →
  (0 < stock info)%Z →
  (_money m <? price info)%float = true →
  select_product m product
  = ([ "❌ Insufficient funds. Need $" +:+ fmt2 (price info - _money m)%float
       +:+ " more" ],
     Return m).
Proof.
  intros Hstate Hinfo _ Hlt.
  unfold VendingMachine.select_product, HasMoneyState_select_product,
    get_product_price, get_money, entry.
  rewrite Hstate, Hinfo. now rewrite (float_ltb_leb _ _ Hlt).
Qed.

(** In [SoldState], a selection that is not in stock is refused by
    changing the state alone. *)
Lemma dispense_out_of_stock (m : VendingMachine) :
  _state m = SoldState →
  has_product m (_selected_product m) = false →
  dispense m
  = ([ "❌ " +:+ str (_selected_product m) +:+ " is out of stock" ],
     Return (set_state m NoMoneyState)).
Proof.
  intros Hstate Hstock.
  unfold VendingMachine.dispense, SoldState_dispense, get_selected_product.
  now rewrite Hstate, Hstock.
Qed.

(** Whatever the machine: with enough money inserted, selecting a listed
    product that is out of stock and dispensing ends in [NoMoneyState] with
    the money and the selection still in the machine, the stock as it was,
    and [eject_money] answering that there is nothing to eject. *)
Lemma out_of_stock_purchase (m : VendingMachine) (product : string)
  (info : product_info) :
  _state m = HasMoneyState →
  _products m !! product = Some info →
  (stock info ≤ 0)%Z →
  (price info <=? _money m)%float = true →
  ∃ m2 m3,
    select_product m product
    = ([ "✅ Selected " +:+ product +:+ " ($" +:+ fmt2 (price info) +:+ ")" ],
       Return m2)
    ∧ dispense m2 = ([ "❌ " +:+ product +:+ " is out of stock" ], Return m3)
    ∧ _state m3 = NoMoneyState
    ∧ _money m3 = _money m
    ∧ _selected_product m3 = Some product
    ∧ _products m3 = _products m
    ∧ eject_money m3 = ([ "❌ No money to eject" ], Return m3).
Proof.
  intros Hstate Hinfo Hstock Hprice.
  exists (set_state (set_selected_product m (Some product)) SoldState).
  exists (set_state (set_state (set_selected_product m (Some product)) SoldState)
            NoMoneyState).
  split; [|split].
  - unfold VendingMachine.select_product, HasMoneyState_select_product,
      get_product_price, get_money, entry.
    now rewrite Hstate, Hinfo, Hprice.
  - rewrite dispense_out_of_stock; [reflexivity | reflexivity|].
    unfold has_product, entry. simpl. rewrite Hinfo.
    apply bool_decide_eq_false. lia.
  - repeat split.
Qed.

(** C2, on the machine of the demonstration: a dollar is inserted, "Candy"
    (price 1.00, stock 0) is selected and dispensed.  The purchase is
    refused and the stock stays at 0, but the machine is left in
    [NoMoneyState] still holding the dollar and the selection: [eject_money]
    then answers that there is no money and returns nothing.  The dollar
    is credited to the next customer: one more dollar then buys "Chips" at
    2.00, which the demonstration announces as its insufficient-funds
    scenario. *)
Theorem out_of_stock_keeps_the_money :
  ∃ m1 m2 m3 m4 m5 : VendingMachine,
    insert_money __init__ 1.00 = ([ "💰 Inserted $" +:+ fmt2 1.00 ], Return m1)
    ∧ select_product m1 "Candy"
      = ([ "✅ Selected Candy ($" +:+ fmt2 1.00 +:+ ")" ], Return m2)
    ∧ dispense m2 = ([ "❌ Candy is out of stock" ], Return m3)
    ∧ _state m3 = NoMoneyState
    ∧ _money m3 = 1.00%float
    ∧ _selected_product m3 = Some "Candy"
    ∧ _products m3 = _products __init__
    ∧ eject_money m3 = ([ "❌ No money to eject" ], Return m3)
    ∧ insert_money m3 1.00 = ([ "💰 Inserted $" +:+ fmt2 1.00 ], Return m4)
    ∧ _money m4 = 2.00%float
    ∧ select_product m4 "Chips"
      = ([ "✅ Selected Chips ($" +:+ fmt2 2.00 +:+ ")" ], Return m5)
    ∧ _state m5 = SoldState.
Proof.
  do 5 eexists. repeat split; reflexivity.
Qed.

End Builtins.

Lemma insufficient_funds_keeps_machine_witness :
  select_product (fun _ => "?") funded "Chips"
  = ([ "❌ Insufficient funds. Need $? more" ], Return funded).
Proof.
  apply (insufficient_funds_keeps_machine (fun _ => "?") funded "Chips"
           {| price := 2.00; stock := 4 |}).
  - reflexivity.
  - reflexivity.
  - simpl. lia.
  - reflexivity.
Defined.

End VendingMachineSpec.

(** ** Composite: the file system *)

Module FileSystemSpec.
Import FileSystem.

Lemma Z_sum_app l k : Z_sum (l ++ k) = (Z_sum l + Z_sum k)%Z.
Proof. induction l as [|x l IH]; simpl; [reflexivity|]. rewrite IH. lia. Qed.

Lemma Z_sum_concat ls : Z_sum (concat ls) = Z_sum (map Z_sum ls).
Proof.
  induction ls as [|l ls IH]; simpl; [reflexivity|].
  now rewrite Z_sum_app, IH.
Qed.

(** The loop of [Folder.get_size] adds the children's sizes to [total]. *)
Lemma accumulate_sum size_of children sizes total :
  Forall2 (fun c s => size_of c = Some s) children sizes →
  accumulate size_of children total = Some (total + Z_sum sizes)%Z.
Proof.
  intros H. revert total.
  induction H as [|c s cs ss Hc _ IH]; intros total; simpl.
  - f_equal. lia.
  - rewrite Hc, IH. f_equal. lia.
Qed.

Lemma height_child t ts :
  t ∈ ts → height t ≤ foldr (fun t n => height t `max` n) 0 ts.
Proof.
  induction 1 as [t ts|t t' ts _ IH]; simpl; lia.
Qed.

Lemma elem_of_concat_map {A B} (f : A → list B) (x : B) (l : list A) :
  x ∈ concat (map f l) ↔ ∃ a, a ∈ l ∧ x ∈ f a.
Proof.
  induction l as [|a l IH]; simpl.
  - split; [intros H; now apply not_elem_of_nil in H|].
    intros (a & Ha & _). now apply not_elem_of_nil in Ha.
  - rewrite elem_of_app, IH. split.
    + intros [H|(a' & Ha' & H)].
      * exists a. split; [apply list_elem_of_here | exact H].
      * exists a'. split; [now apply list_elem_of_further | exact H].
    + intros (a' & Ha' & H). apply elem_of_cons in Ha' as [-> | Ha'].
      * now left.
      * right. now exists a'.
Qed.

Lemma height_pos t : 1 ≤ height t.
Proof. destruct t; simpl; lia. Qed.

Lemma unfolds_root h r t : unfolds h r t → r ∈ refs t.
Proof. destruct 1; simpl; apply list_elem_of_here. Qed.

Section Store.
Variable h : store.

(** With fuel for the height of the tree, [get_size] returns, and returns
    the sum of the sizes of the files below. *)
Lemma get_size_unfolds fuel : ∀ self t,
  unfolds h self t → height t ≤ fuel →
  get_size fuel h self = Some (Z_sum (file_sizes t)).
Proof.
  induction fuel as [|fuel IH]; intros self t Hu Hh.
  - pose proof (height_pos t). lia.
  - destruct Hu as [r name size Hr | r name children ts Hr Hts]; simpl.
    + rewrite Hr. f_equal. lia.
    + rewrite Hr. simpl in Hh.
      rewrite (accumulate_sum _ _ (map (fun t => Z_sum (file_sizes t)) ts)).
      * f_equal. rewrite Z_sum_concat, map_map. reflexivity.
      * assert (Hle : ∀ t, t ∈ ts → height t ≤ fuel).
        { intros t Ht. pose proof (height_child t ts Ht). lia. }
        clear Hh Hr. induction Hts as [|c t cs ts Hc _ IHts]; simpl.
        -- constructor.
        -- constructor.
           ++ apply IH; [exact Hc|]. apply Hle, list_elem_of_here.
           ++ apply IHts. intros t' Ht'. apply Hle. now apply list_elem_of_further.
Qed.

Lemma get_size_children fuel children ts :
  Forall2 (unfolds h) children ts →
  (∀ t, t ∈ ts → height t ≤ fuel) →
  Forall2 (fun c s => get_size fuel h c = Some s) children
          (map (fun t => Z_sum (file_sizes t)) ts).
Proof.
  induction 1 as [|c t cs ts Hc _ IH]; intros Hle; simpl; constructor.
  - apply get_size_unfolds; [exact Hc|]. apply Hle, list_elem_of_here.
  - apply IH. intros t' Ht'. apply Hle. now apply list_elem_of_further.
Qed.

(** A reference unfolds to one tree at most. *)
Lemma unfolds_det n : ∀ t, height t ≤ n → ∀ r t',
  unfolds h r t → unfolds h r t' → t = t'.
Proof.
  induction n as [|n IH]; intros t Hh r t' Hu Hu'.
  - pose proof (height_pos t). lia.
  - destruct Hu as [r name size Hr | r name children ts Hr Hts];
      inversion Hu' as [r' name' size' Hr' | r' name' children' ts' Hr' Hts'];
      subst; rewrite Hr in Hr'; inversion Hr'; subst; [reflexivity|].
    f_equal. simpl in Hh.
    assert (Hle : ∀ t, t ∈ ts → height t ≤ n).
    { intros t Ht. pose proof (height_child t ts Ht). lia. }
    clear Hh Hr Hr' Hu'. revert ts' Hts'.
    induction Hts as [|c t cs ts Hc _ IHts]; intros ts' Hts';
      inversion Hts' as [|c' t' cs' ts'' Hc' Hcs']; subst; [reflexivity|].
    f_equal.
    + apply (IH t (Hle t (list_elem_of_here _ _)) c t' Hc Hc').
    + apply IHts; [|exact Hcs'].
      intros t0 Ht0. apply Hle. now apply list_elem_of_further.
Qed.

(** Every reference of a tree unfolds to a tree that is no higher. *)
Lemma unfolds_within n : ∀ t, height t ≤ n → ∀ r x,
  unfolds h r t → x ∈ refs t →
  ∃ t', unfolds h x t' ∧ height t' ≤ height t.
Proof.
  induction n as [|n IH]; intros t Hh r x Hu Hx.
  - pose proof (height_pos t). lia.
  - destruct Hu as [r name size Hr | r name children ts Hr Hts]; simpl in Hx.
    + apply list_elem_of_singleton in Hx as ->.
      exists (Leaf r name size). split; [now constructor | lia].
    + apply elem_of_cons in Hx as [-> | Hx].
      * exists (Node r name ts). split; [econstructor; eassumption | lia].
      * apply elem_of_concat_map in Hx as (tc & Htc & Hx).
        pose proof (height_child tc ts Htc) as Hc. simpl in Hh.
        apply list_elem_of_lookup in Htc as (i & Hi).
        destruct (Forall2_lookup_r _ _ _ _ _ Hts Hi) as (c & _ & Huc).
        destruct (IH tc ltac:(lia) c x Huc Hx) as (t' & Hu' & Hh').
        exists t'. split; [exact Hu'|]. simpl. lia.
Qed.

(** No folder of a tree sits below itself. *)
Lemma unfolds_acyclic self name ts tc :
  unfolds h self (Node self name ts) → tc ∈ ts → self ∉ refs tc.
Proof.
  intros Hu Htc Hin.
  pose proof (height_child tc ts Htc) as Hc.
  inversion Hu as [|r name' children ts' Hr Hts]; subst.
  apply list_elem_of_lookup in Htc as (i & Hi).
  destruct (Forall2_lookup_r _ _ _ _ _ Hts Hi) as (c & _ & Huc).
  destruct (unfolds_within (height tc) tc (le_n _) c self Huc Hin)
    as (t' & Hu' & Hh').
  assert (t' = Node self name ts) as ->
    by exact (unfolds_det (height t') t' (le_n _) self _ Hu' Hu).
  simpl in Hh'. lia.
Qed.

(** Writing at a reference leaves the trees that do not hold it. *)
Lemma unfolds_insert self it n : ∀ t, height t ≤ n → ∀ r,
  unfolds h r t → self ∉ refs t → unfolds (<[self := it]> h) r t.
Proof.
  induction n as [|n IH]; intros t Hh r Hu Hn.
  - pose proof (height_pos t). lia.
  - destruct Hu as [r name size Hr | r name children ts Hr Hts]; simpl in Hn;
      apply not_elem_of_cons in Hn as [Hne Hn].
    + constructor. now rewrite list_lookup_insert_ne.
    + apply (unfolds_Folder _ r name children ts);
        [now rewrite list_lookup_insert_ne|].
      simpl in Hh.
      assert (Hle : ∀ t, t ∈ ts → height t ≤ n ∧ self ∉ refs t).
      { intros t Ht. pose proof (height_child t ts Ht). split; [lia|].
        intros Hin. apply Hn, elem_of_concat_map. now exists t. }
      clear Hh Hr Hn. induction Hts as [|c t cs ts Hc _ IHts]; constructor.
      * destruct (Hle t (list_elem_of_here _ _)). now apply IH.
      * apply IHts. intros t0 Ht0. apply Hle. now apply list_elem_of_further.
Qed.

Lemma unfolds_insert_children self it children ts :
  Forall2 (unfolds h) children ts →
  (∀ t, t ∈ ts → self ∉ refs t) →
  Forall2 (unfolds (<[self := it]> h)) children ts.
Proof.
  induction 1 as [|c t cs ts Hc _ IHts]; intros Hle; constructor.
  - apply (unfolds_insert self it (height t)); [lia | exact Hc|].
    apply Hle, list_elem_of_here.
  - apply IHts. intros t0 Ht0. apply Hle. now apply list_elem_of_further.
Qed.

End Store.

(** [add] on a folder appends the item to its children: the folder then
    unfolds to its tree with the item's tree as last child. *)
Lemma add_unfolds h self name ts item ti :
  unfolds h self (Node self name ts) →
  unfolds h item ti →
  self ∉ refs ti →
  ∃ h', add h self item = Some h'
        ∧ unfolds h' self (Node self name (ts ++ [ti])).
Proof.
  intros Hu Hi Hn.
  inversion Hu as [|r name' children ts' Hr Hts]; subst.
  unfold add. rewrite Hr. eexists. split; [reflexivity|].
  econstructor.
  - apply list_lookup_insert_eq. now apply lookup_lt_Some in Hr.
  - apply Forall2_app.
    + apply unfolds_insert_children; [exact Hts|].
      intros t Ht. exact (unfolds_acyclic h self name ts t Hu Ht).
    + constructor; [|constructor].
      now apply (unfolds_insert h self _ (height ti)).
Qed.

(** C9.  Let [self] unfold to a finite tree and let the fuel cover its
    height.  Then [get_size] returns the sum of the sizes of all files
    below; on a file it returns the stored size; on a folder it returns the
    sum of what [get_size] returns on each direct child.  It reads nothing
    but the store: after [add] of one more item the next call returns the
    previous sum plus the size of the new item. *)
Theorem folder_size_is_sum_of_children (h : store) (self : ref) (t : tree)
  (fuel : nat) :
  unfolds h self t →
  height t ≤ fuel →
  get_size fuel h self = Some (Z_sum (file_sizes t))
  ∧ (∀ name size, h !! self = Some (File name size) →
       get_size fuel h self = Some size)
  ∧ (∀ name children, h !! self = Some (Folder name children) →
       ∃ sizes,
         Forall2 (fun c s => get_size fuel h c = Some s) children sizes
         ∧ get_size fuel h self = Some (Z_sum sizes))
  ∧ (∀ name children item ti,
       h !! self = Some (Folder name children) →
       unfolds h item ti → self ∉ refs ti →
       ∃ h', add h self item = Some h'
             ∧ get_size (fuel `max` S (height ti)) h' self
               = Some (Z_sum (file_sizes t) + Z_sum (file_sizes ti))%Z).
Proof.
  intros Hu Hh.
  pose proof (get_size_unfolds h fuel self t Hu Hh) as Htotal.
  split; [exact Htotal|]. split; [|split].
  - intros name size Hr. rewrite Htotal.
    inversion Hu as [r n s Hr'|r n cs ts Hr' _]; subst;
      rewrite Hr in Hr'; inversion Hr'; subst. simpl. f_equal. lia.
  - intros name children Hr.
    inversion Hu as [r n s Hr'|r n cs ts Hr' Hts]; subst;
      rewrite Hr in Hr'; inversion Hr'; subst.
    exists (map (fun t => Z_sum (file_sizes t)) ts). split.
    + apply get_size_children; [exact Hts|].
      intros t Ht. pose proof (height_child t ts Ht). simpl in Hh. lia.
    + rewrite Htotal. simpl. now rewrite Z_sum_concat, map_map.
  - intros name children item ti Hr Hi Hn.
    destruct Hu as [r n s Hr'|r n cs ts Hr' Hts];
      rewrite Hr in Hr'; inversion Hr'; subst.
    destruct (add_unfolds h r n ts item ti
                (unfolds_Folder h r n cs ts Hr Hts) Hi Hn) as (h' & Hadd & Hu').
    exists h'. split; [exact Hadd|].
    rewrite (get_size_unfolds h' _ r _ Hu').
    + simpl. rewrite map_app, concat_app, Z_sum_app. simpl.
      now rewrite app_nil_r.
    + simpl in *. rewrite foldr_app. simpl.
      assert (Hmax : ∀ (l : list tree) a,
                foldr (fun t n => height t `max` n) a l
                ≤ foldr (fun t n => height t `max` n) 0 l `max` a).
      { induction l as [|x l IHl]; intros a; simpl; [lia|].
        specialize (IHl a). lia. }
      specialize (Hmax ts (height ti `max` 0)). lia.
Qed.

Lemma documents_demo_store : documents_demo = Some (0, documents_store).
Proof. reflexivity. Qed.

Lemma documents_unfolds : unfolds documents_store 0 documents_tree.
Proof.
  apply (unfolds_Folder _ 0 "root" [1; 4]); [reflexivity|].
  repeat constructor.
  apply (unfolds_Folder _ 1 "Documents" [2; 3]); [reflexivity|].
  repeat constructor.
Qed.

Lemma folder_size_is_sum_of_children_witness :
  get_size 3 documents_store 0 = Some 261632%Z.
Proof.
  apply (folder_size_is_sum_of_children documents_store 0 documents_tree 3).
  - exact documents_unfolds.
  - simpl. lia.
Defined.

End FileSystemSpec.

(** ** Strategy: the sorting algorithms *)

Module SortingSpec.
Import Sorting.

(** *** Reasoning about runs *)

Lemma returns_ret {A} (a : A) h Q : Q a h → returns (ret a) h Q.
Proof. intros H. now exists a, h. Qed.

Lemma returns_bind {A B} (m : M A) (k : A → M B) h Q :
  returns m h (fun a h' => returns (k a) h' Q) → returns (bind m k) h Q.
Proof.
  intros (a & h' & Hm & b & h'' & Hk & HQ).
  exists b, h''. unfold bind. now rewrite Hm.
Qed.

Lemma returns_mono {A} (m : M A) h (Q Q' : A → heap → Prop) :
  returns m h Q → (∀ a h', Q a h' → Q' a h') → returns m h Q'.
Proof. intros (a & h' & Hm & HQ) H. exists a, h'. auto. Qed.

Lemma returns_new v h Q : Q (length h) (h ++ [v]) → returns (new v) h Q.
Proof. intros H. now exists (length h), (h ++ [v]). Qed.

Lemma returns_get r v h Q : h !! r = Some v → Q v h → returns (get r) h Q.
Proof. intros Hr H. exists v, h. unfold get. now rewrite Hr. Qed.

Lemma returns_len r v h Q :
  h !! r = Some v → Q (length v) h → returns (len r) h Q.
Proof.
  intros Hr H. apply returns_bind, (returns_get r v); [exact Hr|].
  now apply returns_ret.
Qed.

Lemma returns_index r v i x h Q :
  h !! r = Some v → v !! i = Some x → Q x h → returns (index r i) h Q.
Proof.
  intros Hr Hi H. apply returns_bind, (returns_get r v); [exact Hr|].
  rewrite Hi. now apply returns_ret.
Qed.

Lemma returns_setitem r v i x h Q :
  h !! r = Some v → i < length v →
  Q tt (<[r := <[i := x]> v]> h) → returns (setitem r i x) h Q.
Proof.
  intros Hr Hi H. exists tt, (<[r := <[i := x]> v]> h).
  unfold setitem. rewrite Hr. now rewrite decide_True.
Qed.

Lemma returns_append r v x h Q :
  h !! r = Some v → Q tt (<[r := v ++ [x]]> h) → returns (append r x) h Q.
Proof.
  intros Hr H. exists tt, (<[r := v ++ [x]]> h). unfold append. now rewrite Hr.
Qed.

Lemma returns_extend r v xs ys h Q :
  h !! r = Some v → h !! xs = Some ys →
  Q tt (<[r := v ++ ys]> h) → returns (extend r xs) h Q.
Proof.
  intros Hr Hxs H. apply returns_bind, (returns_get xs ys); [exact Hxs|].
  exists tt, (<[r := v ++ ys]> h). now rewrite Hr.
Qed.

Lemma returns_comprehension (P : Z → Prop) `{!∀ x, Decision (P x)} r v h Q :
  h !! r = Some v → Q (length h) (h ++ [filter P v]) →
  returns (comprehension P r) h Q.
Proof.
  intros Hr HQ. apply returns_bind, (returns_get r v); [exact Hr|].
  now apply returns_new.
Qed.

Lemma returns_concat a b x y h Q :
  h !! a = Some x → h !! b = Some y → Q (length h) (h ++ [x ++ y]) →
  returns (concat a b) h Q.
Proof.
  intros Ha Hb H. apply returns_bind, (returns_get a x); [exact Ha|].
  apply returns_bind, (returns_get b y); [exact Hb|].
  now apply returns_new.
Qed.

Lemma returns_slice_to r v k h Q :
  h !! r = Some v → Q (length h) (h ++ [take k v]) →
  returns (slice_to r k) h Q.
Proof.
  intros Hr H. apply returns_bind, (returns_get r v); [exact Hr|].
  now apply returns_new.
Qed.

Lemma returns_slice_from r v k h Q :
  h !! r = Some v → Q (length h) (h ++ [drop k v]) →
  returns (slice_from r k) h Q.
Proof.
  intros Hr H. apply returns_bind, (returns_get r v); [exact Hr|].
  now apply returns_new.
Qed.

Lemma returns_copy r v h Q :
  h !! r = Some v → Q (length h) (h ++ [v]) → returns (copy r) h Q.
Proof.
  intros Hr H. apply returns_bind, (returns_get r v); [exact Hr|].
  now apply returns_new.
Qed.

(** *** The store *)

Lemma preserved_refl h : preserved h h.
Proof. reflexivity. Qed.

Lemma preserved_trans h1 h2 h3 :
  preserved h1 h2 → preserved h2 h3 → preserved h1 h3.
Proof. unfold preserved. intros H1 H2. now transitivity h2. Qed.

Lemma preserved_new h h' v : preserved h h' → preserved h (h' ++ [v]).
Proof. apply prefix_app_r. Qed.

(** Writing to an object allocated later preserves the earlier ones. *)
Lemma preserved_write h h' r v :
  preserved h h' → length h ≤ r → preserved h (<[r := v]> h').
Proof.
  intros [k ->] Hr. exists (<[r - length h := v]> k).
  now apply insert_app_r_alt.
Qed.

Lemma preserved_lookup h h' r (v : list Z) :
  preserved h h' → h !! r = Some v → h' !! r = Some v.
Proof. intros H Hr. exact (prefix_lookup_Some _ _ _ _ Hr H). Qed.

Lemma preserved_length h h' : preserved h h' → length h ≤ length h'.
Proof. apply prefix_length. Qed.

Lemma lookup_new (h : heap) v : (h ++ [v]) !! length h = Some v.
Proof. now apply list_lookup_middle. Qed.

Lemma lookup_old (h : heap) r v w : h !! r = Some v → (h ++ [w]) !! r = Some v.
Proof. apply lookup_app_l_Some. Qed.

(** *** Lists by value *)

Lemma short_sorted (l : list Z) : length l ≤ 1 → StronglySorted Z.le l.
Proof.
  destruct l as [|x [|y l]]; simpl; intros H; try lia; repeat constructor.
Qed.

(** The three comprehensions of the quick sort split the list. *)
Lemma three_way_split (pivot : Z) (d : list Z) :
  filter (fun x => x < pivot)%Z d
    ++ filter (fun x => x = pivot) d
    ++ filter (fun x => x > pivot)%Z d ≡ₚ d.
Proof.
  induction d as [|x d IH]; [reflexivity|].
  destruct (Z.lt_trichotomy x pivot) as [Hlt|[Heq|Hgt]].
  - rewrite (filter_cons_True (fun x => x < pivot)%Z) by exact Hlt.
    rewrite (filter_cons_False (fun x => x = pivot)) by lia.
    rewrite (filter_cons_False (fun x => x > pivot)%Z) by lia.
    simpl. now rewrite IH.
  - rewrite (filter_cons_False (fun x => x < pivot)%Z) by lia.
    rewrite (filter_cons_True (fun x => x = pivot)) by exact Heq.
    rewrite (filter_cons_False (fun x => x > pivot)%Z) by lia.
    simpl. rewrite <- Permutation_middle. now rewrite IH.
  - rewrite (filter_cons_False (fun x => x < pivot)%Z) by lia.
    rewrite (filter_cons_False (fun x => x = pivot)) by lia.
    rewrite (filter_cons_True (fun x => x > pivot)%Z) by lia.
    rewrite app_assoc, <- Permutation_middle, <- app_assoc. now rewrite IH.
Qed.

(** Sorted low part, copies of the pivot, sorted high part: sorted. *)
Lemma three_way_sorted (pivot : Z) (d lo hi : list Z) :
  lo ≡ₚ filter (fun x => x < pivot)%Z d →
  hi ≡ₚ filter (fun x => x > pivot)%Z d →
  StronglySorted Z.le lo → StronglySorted Z.le hi →
  StronglySorted Z.le ((lo ++ filter (fun x => x = pivot) d) ++ hi).
Proof.
  intros Hlo Hhi Slo Shi.
  assert (Flo : ∀ x, x ∈ lo → (x < pivot)%Z).
  { intros x Hx. rewrite Hlo in Hx. now apply list_elem_of_filter in Hx as [? _]. }
  assert (Fhi : ∀ x, x ∈ hi → (x > pivot)%Z).
  { intros x Hx. rewrite Hhi in Hx. now apply list_elem_of_filter in Hx as [? _]. }
  assert (Fmid : ∀ x, x ∈ filter (fun x => x = pivot) d → x = pivot).
  { intros x Hx. now apply list_elem_of_filter in Hx as [? _]. }
  assert (Smid : StronglySorted Z.le (filter (fun x => x = pivot) d)).
  { induction (filter (fun x => x = pivot) d) as [|x l IHl]; [constructor|].
    constructor.
    - apply IHl. intros y Hy. apply Fmid. now apply list_elem_of_further.
    - apply List.Forall_forall. intros y Hy. apply list_elem_of_In in Hy.
      rewrite (Fmid x (list_elem_of_here _ _)).
      rewrite (Fmid y (list_elem_of_further _ _ _ Hy)). lia. }
  apply StronglySorted_app_2; [|apply StronglySorted_app_2; trivial|exact Shi].
  - intros x y Hx Hy. apply elem_of_app in Hx as [Hx|Hx].
    + specialize (Flo x Hx). specialize (Fhi y Hy). lia.
    + specialize (Fmid x Hx). specialize (Fhi y Hy). lia.
  - intros x y Hx Hy. specialize (Flo x Hx). specialize (Fmid y Hy). lia.
Qed.

(** *** QuickSortStrategy.sort *)

Lemma quick_sort_returns fuel : ∀ data h d,
  h !! data = Some d → length d < fuel →
  returns (QuickSortStrategy.sort fuel data) h
    (fun r h' => sorted_result h d r h'
                 ∧ (length d ≤ 1 → r = data ∧ h' = h)
                 ∧ (2 ≤ length d → length h ≤ r)).
Proof.
  induction fuel as [|fuel IH]; intros data h d Hd Hf; [lia|].
  simpl. apply returns_bind, (returns_len data d); [exact Hd|].
  destruct (decide (length d ≤ 1)) as [Hle|Hgt].
  - apply returns_ret. split; [|split; [auto | lia]].
    split; [apply preserved_refl|]. exists d.
    split; [exact Hd|]. split; [reflexivity | now apply short_sorted].
  - destruct (lookup_lt_is_Some_2 d (length d / 2)) as [pivot Hp].
    { apply Nat.div_lt; lia. }
    assert (Hin : pivot ∈ d) by (apply list_elem_of_lookup; eauto).
    apply returns_bind, (returns_index data d _ pivot); [exact Hd | exact Hp|].
    apply returns_bind, (returns_comprehension _ data d); [exact Hd|].
    apply returns_bind, (returns_comprehension _ data d);
      [now apply lookup_old|].
    apply returns_bind, (returns_comprehension _ data d);
      [now do 2 apply lookup_old|].
    set (lo := filter (fun x => x < pivot)%Z d).
    set (mid := filter (fun x => x = pivot) d).
    set (hi := filter (fun x => x > pivot)%Z d).
    set (h1 := h ++ [lo]). set (h2 := h1 ++ [mid]). set (h3 := h2 ++ [hi]).
    assert (P3 : preserved h h3) by (do 3 apply preserved_new; apply preserved_refl).
    apply returns_bind.
    eapply returns_mono.
    { apply (IH (length h) h3 lo).
      - do 2 apply lookup_old. apply lookup_new.
      - pose proof (length_filter_lt (fun x => x < pivot)%Z d pivot Hin).
        unfold lo. lia. }
    intros sl h4 ((P4 & outl & Hsl & Pl & Sl) & _ & _). cbn beta.
    apply returns_bind, (returns_concat sl _ outl mid); [exact Hsl| |].
    { apply (preserved_lookup h3 h4); [exact P4|]. apply lookup_old, lookup_new. }
    apply returns_bind.
    eapply returns_mono.
    { apply (IH (length h2) (h4 ++ [outl ++ mid]) hi).
      - apply lookup_old. apply (preserved_lookup h3 h4); [exact P4|].
        apply lookup_new.
      - pose proof (length_filter_lt (fun x => x > pivot)%Z d pivot Hin).
        unfold hi. lia. }
    intros sr h6 ((P6 & outr & Hsr & Pr & Sr) & _ & _). cbn beta.
    apply (returns_concat _ sr (outl ++ mid) outr); [|exact Hsr|].
    { apply (preserved_lookup (h4 ++ [outl ++ mid]) h6); [exact P6|].
      apply lookup_new. }
    assert (P7 : preserved h (h6 ++ [(outl ++ mid) ++ outr])).
    { apply preserved_new. apply (preserved_trans _ (h4 ++ [outl ++ mid])); [|exact P6].
      apply preserved_new. now apply (preserved_trans _ h3). }
    split; [|split; [lia|]].
    + split; [exact P7|]. exists ((outl ++ mid) ++ outr).
      split; [apply lookup_new|]. split.
      * rewrite Pl, Pr, <- app_assoc. apply three_way_split.
      * now apply three_way_sorted.
    + intros _. apply preserved_length in P6, P4.
      rewrite length_app in P6. unfold h3, h2, h1 in P4.
      rewrite !length_app in P4. simpl in *. lia.
Qed.

(** *** MergeSortStrategy *)

Lemma merge_lists_nil_l r : merge_lists [] r = r.
Proof. now destruct r. Qed.

Lemma merge_lists_nil_r l : merge_lists l [] = l.
Proof. now destruct l. Qed.

Lemma merge_lists_cons a l b r :
  merge_lists (a :: l) (b :: r)
  = if decide (a ≤ b)%Z then a :: merge_lists l (b :: r)
    else b :: merge_lists (a :: l) r.
Proof. reflexivity. Qed.

Lemma merge_lists_perm l : ∀ r, merge_lists l r ≡ₚ l ++ r.
Proof.
  induction l as [|a l IHl]; intros r.
  - now rewrite merge_lists_nil_l.
  - induction r as [|b r IHr].
    + now rewrite merge_lists_nil_r, app_nil_r.
    + rewrite merge_lists_cons. destruct (decide (a ≤ b)%Z).
      * now rewrite IHl.
      * rewrite IHr. apply (Permutation_middle (a :: l) r b).
Qed.

Lemma merge_lists_sorted l : ∀ r,
  StronglySorted Z.le l → StronglySorted Z.le r →
  StronglySorted Z.le (merge_lists l r).
Proof.
  induction l as [|a l IHl]; intros r Sl Sr.
  - now rewrite merge_lists_nil_l.
  - induction r as [|b r IHr].
    + now rewrite merge_lists_nil_r.
    + rewrite merge_lists_cons.
      apply StronglySorted_cons in Sl as [Fa Sl'].
      apply StronglySorted_cons in Sr as [Fb Sr'].
      destruct (decide (a ≤ b)%Z) as [Hab|Hab]; apply StronglySorted_cons.
      * split.
        -- rewrite merge_lists_perm. apply Forall_app. split; [exact Fa|].
           constructor; [exact Hab|].
           eapply Forall_impl; [exact Fb|]. intros y Hy. simpl in Hy. lia.
        -- apply IHl; [exact Sl'|]. now apply StronglySorted_cons.
      * split.
        -- rewrite merge_lists_perm. apply Forall_app. split; [|exact Fb].
           constructor; [lia|].
           eapply Forall_impl; [exact Fa|]. intros y Hy. simpl in Hy. lia.
        -- apply IHr. exact Sr'.
Qed.

(** The loop moves the merge of the unread parts behind what [result]
    already holds; what it leaves unread is appended after it. *)
Lemma merge_loop_returns fuel : ∀ left right result L R acc i j h,
  h !! left = Some L → h !! right = Some R → h !! result = Some acc →
  result ≠ left → result ≠ right →
  (length L - i) + (length R - j) < fuel →
  returns (MergeSortStrategy.merge_loop fuel left right result i j) h
    (fun ij h' =>
       ∃ acc', h' = <[result := acc']> h
               ∧ acc' ++ drop ij.1 L ++ drop ij.2 R
                 = acc ++ merge_lists (drop i L) (drop j R)).
Proof.
  induction fuel as [|fuel IH];
    intros left right result L R acc i j h Hl Hr Hres Nl Nr Hf; [lia|].
  pose proof (lookup_lt_Some _ _ _ Hres) as Hlen.
  simpl. apply returns_bind, (returns_len left L); [exact Hl|].
  apply returns_bind, (returns_len right R); [exact Hr|].
  destruct (decide (i < length L ∧ j < length R)) as [[Hi Hj]|Hexit].
  - destruct (lookup_lt_is_Some_2 L i Hi) as [a Ha].
    destruct (lookup_lt_is_Some_2 R j Hj) as [b Hb].
    apply returns_bind, (returns_index left L i a); [exact Hl | exact Ha|].
    apply returns_bind, (returns_index right R j b); [exact Hr | exact Hb|].
    rewrite (drop_S L a i Ha), (drop_S R b j Hb), merge_lists_cons.
    destruct (decide (a ≤ b)%Z) as [Hab|Hab].
    + apply returns_bind, (returns_append result acc); [exact Hres|].
      eapply returns_mono.
      { apply (IH left right result L R (acc ++ [a]) (i + 1) j).
        - now rewrite list_lookup_insert_ne.
        - now rewrite list_lookup_insert_ne.
        - now apply list_lookup_insert_eq.
        - exact Nl.
        - exact Nr.
        - lia. }
      intros [i' j'] h' (acc' & -> & Heq). exists acc'.
      split; [apply list_insert_insert_eq|].
      rewrite Heq, Nat.add_1_r, (drop_S R b j Hb), <- app_assoc. reflexivity.
    + apply returns_bind, (returns_append result acc); [exact Hres|].
      eapply returns_mono.
      { apply (IH left right result L R (acc ++ [b]) i (j + 1)).
        - now rewrite list_lookup_insert_ne.
        - now rewrite list_lookup_insert_ne.
        - now apply list_lookup_insert_eq.
        - exact Nl.
        - exact Nr.
        - lia. }
      intros [i' j'] h' (acc' & -> & Heq). exists acc'.
      split; [apply list_insert_insert_eq|].
      rewrite Heq, Nat.add_1_r, (drop_S L a i Ha), <- app_assoc. reflexivity.
  - apply returns_ret. exists acc. split.
    + symmetry. now apply list_insert_id.
    + simpl. f_equal. destruct (decide (i < length L)) as [Hi|Hi].
      * rewrite (drop_ge R j) by lia.
        now rewrite app_nil_r, merge_lists_nil_r.
      * rewrite (drop_ge L i) by lia. now rewrite merge_lists_nil_l.
Qed.

Lemma merge_returns fuel left right L R h :
  h !! left = Some L → h !! right = Some R →
  length L + length R < fuel →
  returns (MergeSortStrategy._merge fuel left right) h
    (fun r h' => r = length h ∧ preserved h h'
                 ∧ h' !! r = Some (merge_lists L R)).
Proof.
  intros Hl Hr Hf.
  pose proof (lookup_lt_Some _ _ _ Hl) as Ll.
  pose proof (lookup_lt_Some _ _ _ Hr) as Lr.
  unfold MergeSortStrategy._merge.
  apply returns_bind, returns_new.
  set (result := length h). set (h1 := h ++ [[]]).
  assert (Lres : result < length h1)
    by (unfold h1, result; rewrite length_app; simpl; lia).
  apply returns_bind. eapply returns_mono.
  { apply (merge_loop_returns fuel left right result L R [] 0 0 h1).
    - now apply lookup_old.
    - now apply lookup_old.
    - apply lookup_new.
    - unfold result. lia.
    - unfold result. lia.
    - lia. }
  intros [i j] h2 (acc & -> & Heq). simpl in Heq. rewrite !drop_0 in Heq.
  cbn beta. cbn [fst snd].
  assert (H2l : <[result := acc]> h1 !! left = Some L).
  { rewrite list_lookup_insert_ne by (unfold result; lia). now apply lookup_old. }
  assert (H2r : <[result := acc]> h1 !! right = Some R).
  { rewrite list_lookup_insert_ne by (unfold result; lia). now apply lookup_old. }
  apply returns_bind, (returns_slice_from left L); [exact H2l|].
  set (h3 := <[result := acc]> h1 ++ [drop i L]).
  apply returns_bind,
    (returns_extend result acc (length (<[result := acc]> h1)) (drop i L)).
  { apply lookup_old. now apply list_lookup_insert_eq. }
  { apply lookup_new. }
  set (h4 := <[result := acc ++ drop i L]> h3).
  assert (L3 : result < length h3).
  { unfold h3. rewrite length_app, length_insert. lia. }
  apply returns_bind, (returns_slice_from right R).
  { unfold h4. rewrite list_lookup_insert_ne by (unfold result; lia).
    now apply lookup_old. }
  apply returns_bind,
    (returns_extend result (acc ++ drop i L) (length h4) (drop j R)).
  { apply lookup_old. unfold h4. now apply list_lookup_insert_eq. }
  { apply lookup_new. }
  apply returns_ret. split; [reflexivity|]. split.
  - apply preserved_write; [|unfold result; lia]. apply preserved_new.
    apply preserved_write; [|unfold result; lia]. apply preserved_new.
    apply preserved_write; [|unfold result; lia]. apply preserved_new.
    apply preserved_refl.
  - rewrite list_lookup_insert_eq.
    + rewrite <- Heq, <- app_assoc. reflexivity.
    + rewrite length_app. unfold h4. rewrite length_insert. lia.
Qed.

Lemma merge_sort_returns fuel : ∀ data h d,
  h !! data = Some d → length d + 1 < fuel →
  returns (MergeSortStrategy.sort fuel data) h
    (fun r h' => sorted_result h d r h'
                 ∧ (length d ≤ 1 → r = data ∧ h' = h)
                 ∧ (2 ≤ length d → length h ≤ r)).
Proof.
  induction fuel as [|fuel IH]; intros data h d Hd Hf; [lia|].
  simpl. apply returns_bind, (returns_len data d); [exact Hd|].
  destruct (decide (length d ≤ 1)) as [Hle|Hgt].
  - apply returns_ret. split; [|split; [auto | lia]].
    split; [apply preserved_refl|]. exists d.
    split; [exact Hd|]. split; [reflexivity | now apply short_sorted].
  - set (mid := length d / 2).
    assert (Hmid : 1 ≤ mid < length d).
    { unfold mid. split.
      - apply Nat.div_le_lower_bound; lia.
      - apply Nat.div_lt; lia. }
    apply returns_bind, (returns_slice_to data d); [exact Hd|].
    apply returns_bind. eapply returns_mono.
    { apply (IH (length h) (h ++ [take mid d]) (take mid d)).
      - apply lookup_new.
      - rewrite length_take. lia. }
    intros left h2 ((P2 & outl & Hleft & Pl & Sl) & _ & _). cbn beta.
    assert (P02 : preserved h h2).
    { apply (preserved_trans _ (h ++ [take mid d])); [|exact P2].
      apply preserved_new, preserved_refl. }
    apply returns_bind, (returns_slice_from data d).
    { now apply (preserved_lookup h h2). }
    apply returns_bind. eapply returns_mono.
    { apply (IH (length h2) (h2 ++ [drop mid d]) (drop mid d)).
      - apply lookup_new.
      - rewrite length_drop. lia. }
    intros right h4 ((P4 & outr & Hright & Pr & Sr) & _ & _). cbn beta.
    assert (P24 : preserved h2 h4).
    { apply (preserved_trans _ (h2 ++ [drop mid d])); [|exact P4].
      apply preserved_new, preserved_refl. }
    eapply returns_mono.
    { apply (merge_returns fuel left right outl outr h4).
      - now apply (preserved_lookup h2 h4).
      - exact Hright.
      - rewrite (Permutation_length Pl), (Permutation_length Pr).
        rewrite length_take, length_drop. lia. }
    intros r h5 (-> & P5 & Hout). split; [|split; [lia|]].
    + split.
      * apply (preserved_trans _ h4); [|exact P5].
        now apply (preserved_trans _ h2).
      * exists (merge_lists outl outr). split; [exact Hout|]. split.
        -- rewrite merge_lists_perm, Pl, Pr. now rewrite take_drop.
        -- now apply merge_lists_sorted.
    + intros _. apply preserved_length in P02, P24. lia.
Qed.

(** *** BubbleSortStrategy *)

Lemma bubble_pass_S k x y t :
  bubble_pass (S k) (x :: y :: t)
  = if decide (x > y)%Z
    then (y :: (bubble_pass k (x :: t)).1, true)
    else (x :: (bubble_pass k (y :: t)).1, (bubble_pass k (y :: t)).2).
Proof. reflexivity. Qed.

Lemma bubble_pass_perm k : ∀ l, (bubble_pass k l).1 ≡ₚ l.
Proof.
  induction k as [|k IH]; intros [|x [|y t]]; try reflexivity.
  rewrite bubble_pass_S. destruct (decide (x > y)%Z); simpl; rewrite IH.
  - apply perm_swap.
  - reflexivity.
Qed.

(** A pass of [k] comparisons touches the first [k + 1] items only. *)
Lemma bubble_pass_app k : ∀ l1 l2,
  k < length l1 →
  bubble_pass k (l1 ++ l2) = ((bubble_pass k l1).1 ++ l2, (bubble_pass k l1).2).
Proof.
  induction k as [|k IH]; intros l1 l2 Hk; [reflexivity|].
  destruct l1 as [|x [|y t]]; simpl in Hk; try lia.
  change ((x :: y :: t) ++ l2) with (x :: y :: (t ++ l2)).
  rewrite !bubble_pass_S. destruct (decide (x > y)%Z).
  - change (x :: t ++ l2) with ((x :: t) ++ l2).
    rewrite IH by (simpl; lia). reflexivity.
  - change (y :: t ++ l2) with ((y :: t) ++ l2).
    rewrite IH by (simpl; lia). reflexivity.
Qed.

(** A pass that swaps nothing changes nothing, and went over items in
    order. *)
Lemma bubble_pass_quiet k : ∀ l,
  (bubble_pass k l).2 = false →
  (bubble_pass k l).1 = l ∧ Sorted Z.le (take (S k) l).
Proof.
  induction k as [|k IH]; intros l Hq.
  - split; [reflexivity|]. destruct l; simpl; repeat constructor.
  - destruct l as [|x [|y t]]; try (split; [reflexivity | repeat constructor]).
    rewrite bubble_pass_S in *. destruct (decide (x > y)%Z); [discriminate|].
    simpl in *. destruct (IH (y :: t) Hq) as [-> Hs].
    split; [reflexivity|]. constructor; [exact Hs|]. constructor. lia.
Qed.

Lemma top_bound (p : list Z) (m z : Z) (rest : list Z) :
  p ++ [m] ≡ₚ z :: rest → Forall (fun x => x ≤ m)%Z p → (z ≤ m)%Z.
Proof.
  intros Hp Hf.
  assert (Hz : z ∈ p ++ [m]) by (rewrite Hp; apply list_elem_of_here).
  apply elem_of_app in Hz as [Hz|Hz].
  - rewrite Forall_forall in Hf. now apply Hf.
  - apply list_elem_of_singleton in Hz. lia.
Qed.

(** After [k] comparisons the greatest of the first [k + 1] items sits at
    index [k]. *)
Lemma bubble_pass_top k : ∀ l,
  k < length l →
  ∃ p m, (bubble_pass k l).1 = p ++ m :: drop (S k) l
         ∧ p ++ [m] ≡ₚ take (S k) l
         ∧ Forall (fun x => x ≤ m)%Z p.
Proof.
  induction k as [|k IH]; intros l Hk.
  - destruct l as [|x t]; simpl in Hk; [lia|].
    exists [], x. simpl. rewrite drop_0, take_0. auto.
  - destruct l as [|x [|y t]]; simpl in Hk; try lia.
    rewrite bubble_pass_S. destruct (decide (x > y)%Z) as [Hxy|Hxy].
    + destruct (IH (x :: t) ltac:(simpl; lia)) as (p & m & -> & Hp & Hf).
      exists (y :: p), m. split; [reflexivity|]. split.
      * simpl. rewrite Hp. simpl. apply perm_swap.
      * constructor; [|exact Hf].
        pose proof (top_bound p m x _ Hp Hf). lia.
    + destruct (IH (y :: t) ltac:(simpl; lia)) as (p & m & -> & Hp & Hf).
      exists (x :: p), m. split; [reflexivity|]. split.
      * simpl. rewrite Hp. reflexivity.
      * constructor; [|exact Hf].
        pose proof (top_bound p m y _ Hp Hf). lia.
Qed.

(** The two assignments of the swap. *)
Lemma swap_writes (pre : list Z) (x y : Z) (t : list Z) j :
  length pre = j →
  <[j + 1 := x]> (<[j := y]> (pre ++ x :: y :: t)) = pre ++ y :: x :: t.
Proof.
  intros <-.
  rewrite (insert_app_r_alt pre) by lia. rewrite Nat.sub_diag. simpl.
  rewrite (insert_app_r_alt pre) by lia.
  replace (length pre + 1 - length pre) with 1 by lia. reflexivity.
Qed.

(** The inner loop, started at index [j], performs a pass on the items
    from [j] on. *)
Lemma inner_returns arr k : ∀ j pre l swapped h,
  h !! arr = Some (pre ++ l) → length pre = j → k < length l →
  returns (BubbleSortStrategy.inner arr (seq j k) swapped) h
    (fun s h' => s = swapped || (bubble_pass k l).2
                 ∧ h' = <[arr := pre ++ (bubble_pass k l).1]> h).
Proof.
  induction k as [|k IH]; intros j pre l swapped h Harr Hj Hk.
  - apply returns_ret. split; [now rewrite orb_false_r|].
    symmetry. now apply list_insert_id.
  - destruct l as [|x [|y t]]; simpl in Hk; try lia.
    pose proof (lookup_lt_Some _ _ _ Harr) as Larr.
    assert (Hx : (pre ++ x :: y :: t) !! j = Some x)
      by now apply list_lookup_middle.
    assert (Hy : (pre ++ x :: y :: t) !! (j + 1) = Some y).
    { rewrite (cons_middle x pre), app_assoc.
      apply list_lookup_middle. rewrite length_app. simpl. lia. }
    assert (Lj : j + 1 < length (pre ++ x :: y :: t)).
    { rewrite length_app. simpl. lia. }
    cbn [seq BubbleSortStrategy.inner].
    apply returns_bind, (returns_index arr (pre ++ x :: y :: t) j x); [exact Harr | exact Hx|].
    apply returns_bind, (returns_index arr (pre ++ x :: y :: t) (j + 1) y); [exact Harr | exact Hy|].
    rewrite bubble_pass_S. destruct (decide (x > y)%Z) as [Hxy|Hxy].
    + apply returns_bind, (returns_index arr (pre ++ x :: y :: t) (j + 1) y);
        [exact Harr | exact Hy|].
      apply returns_bind, (returns_index arr (pre ++ x :: y :: t) j x); [exact Harr | exact Hx|].
      apply returns_bind, (returns_setitem arr (pre ++ x :: y :: t));
        [exact Harr | lia|].
      apply returns_bind,
        (returns_setitem arr (<[j := y]> (pre ++ x :: y :: t)));
        [now apply list_lookup_insert_eq | rewrite length_insert; lia|].
      rewrite list_insert_insert_eq, (swap_writes pre x y t j Hj).
      eapply returns_mono.
      { apply (IH (S j) (pre ++ [y]) (x :: t) true).
        - rewrite <- app_assoc. now apply list_lookup_insert_eq.
        - rewrite length_app. simpl. lia.
        - simpl. lia. }
      intros s h' [-> ->]. simpl. split; [now rewrite orb_true_r|].
      rewrite list_insert_insert_eq, <- app_assoc. reflexivity.
    + eapply returns_mono.
      { apply (IH (S j) (pre ++ [x]) (y :: t) swapped h).
        - now rewrite <- app_assoc.
        - rewrite length_app. simpl. lia.
        - simpl. lia. }
      intros s h' [-> ->]. simpl. split; [reflexivity|].
      rewrite <- app_assoc. reflexivity.
Qed.

(** The outer loop: the last [i] items are in place, at or above all the
    others, when iteration [i] starts. *)
Lemma outer_returns arr n m : ∀ i p s h,
  h !! arr = Some (p ++ s) → length (p ++ s) = n →
  length s = i → length p = m →
  StronglySorted Z.le s →
  (∀ x y, x ∈ p → y ∈ s → (x ≤ y)%Z) →
  returns (BubbleSortStrategy.outer arr n (seq i m)) h
    (fun _ h' => ∃ out, h' = <[arr := out]> h
                        ∧ out ≡ₚ p ++ s ∧ StronglySorted Z.le out).
Proof.
  induction m as [|m IH]; intros i p s h Harr Hn Hs Hp Ss Hps.
  - apply returns_ret. destruct p; [|discriminate]. exists s.
    split; [symmetry; now apply list_insert_id|]. split; [reflexivity | exact Ss].
  - pose proof (lookup_lt_Some _ _ _ Harr) as Larr.
    cbn [seq BubbleSortStrategy.outer].
    assert (Hk : n - i - 1 = m) by (rewrite length_app in Hn; lia).
    rewrite Hk. apply returns_bind. eapply returns_mono.
    { apply (inner_returns arr m 0 [] (p ++ s) false h); [exact Harr | reflexivity|].
      rewrite length_app. lia. }
    intros swapped h1 [-> ->]. cbn beta. rewrite orb_false_l. simpl app.
    rewrite (bubble_pass_app m p s) by lia. cbn [fst snd].
    destruct (bubble_pass m p).2 eqn:Hq; simpl negb; cbv iota.
    + destruct (bubble_pass_top m p ltac:(lia)) as (p' & top & Hpass & Hperm & Hle).
      rewrite drop_ge in Hpass by lia. rewrite take_ge in Hperm by lia.
      rewrite Hpass, <- app_assoc. simpl app.
      assert (Hp' : length p' = m).
      { apply Permutation_length in Hperm. rewrite length_app in Hperm.
        simpl in Hperm. lia. }
      assert (Htop : top ∈ p).
      { rewrite <- Hperm. apply elem_of_app. right. apply list_elem_of_here. }
      eapply returns_mono.
      { apply (IH (S i) p' (top :: s)).
        - now apply list_lookup_insert_eq.
        - rewrite <- Hn, !length_app. simpl. lia.
        - simpl. lia.
        - exact Hp'.
        - apply StronglySorted_cons. split; [|exact Ss].
          apply Forall_forall. intros y Hy. now apply Hps.
        - intros x y Hx Hy. apply elem_of_cons in Hy as [-> | Hy].
          + rewrite Forall_forall in Hle. now apply Hle.
          + apply Hps; [|exact Hy]. rewrite <- Hperm.
            apply elem_of_app. now left. }
      intros _ h' (out & -> & Pout & Sout). exists out.
      split; [apply list_insert_insert_eq|]. split; [|exact Sout].
      rewrite Pout, <- Hperm, <- app_assoc. reflexivity.
    + apply returns_ret.
      destruct (bubble_pass_quiet m p Hq) as [-> Hsorted].
      rewrite take_ge in Hsorted by lia. exists (p ++ s).
      split; [reflexivity|]. split; [reflexivity|].
      apply StronglySorted_app_2; [exact Hps| |exact Ss].
      apply Sorted.Sorted_StronglySorted; [|exact Hsorted].
      intros a b c. apply Z.le_trans.
Qed.

Lemma bubble_sort_returns fuel data h d :
  h !! data = Some d →
  returns (BubbleSortStrategy.sort fuel data) h
    (fun r h' => sorted_result h d r h' ∧ r = length h).
Proof.
  intros Hd. unfold BubbleSortStrategy.sort.
  apply returns_bind, (returns_copy data d); [exact Hd|].
  apply returns_bind, (returns_len _ d); [apply lookup_new|].
  apply returns_bind. eapply returns_mono.
  { apply (outer_returns (length h) (length d) (length d) 0 d [] (h ++ [d])).
    - rewrite app_nil_r. apply lookup_new.
    - now rewrite app_nil_r.
    - reflexivity.
    - reflexivity.
    - constructor.
    - intros x y _ Hy. now apply not_elem_of_nil in Hy. }
  intros _ h' (out & -> & Pout & Sout). apply returns_ret.
  split; [|reflexivity]. split.
  - apply preserved_write; [|lia]. apply preserved_new, preserved_refl.
  - exists out. split.
    + apply list_lookup_insert_eq. rewrite length_app. simpl. lia.
    + now rewrite app_nil_r in Pout.
Qed.

(** *** The three strategies *)

Lemma strategy_returns (s : SortStrategy) fuel data h d :
  s = QuickSort ∨ s = MergeSort ∨ s = BubbleSort →
  h !! data = Some d →
  length d + 1 < fuel →
  returns (sort s fuel data) h
    (fun r h' => sorted_result h d r h'
                 ∧ (s = BubbleSort ∨ 2 ≤ length d → length h ≤ r)
                 ∧ (s = QuickSort ∨ s = MergeSort → length d ≤ 1 →
                    r = data ∧ h' = h)).
Proof.
  intros [-> | [-> | ->]] Hd Hf; simpl.
  - eapply returns_mono; [apply (quick_sort_returns fuel data h d Hd); lia|].
    intros r h' (Hres & Hshort & Hlong). split; [exact Hres|]. split.
    + intros [Hb|Hlen]; [|auto].
      apply (f_equal get_name) in Hb. discriminate.
    + auto.
  - eapply returns_mono; [apply (merge_sort_returns fuel data h d Hd); lia|].
    intros r h' (Hres & Hshort & Hlong). split; [exact Hres|]. split.
    + intros [Hb|Hlen]; [|auto].
      apply (f_equal get_name) in Hb. discriminate.
    + auto.
  - eapply returns_mono; [apply (bubble_sort_returns fuel data h d Hd)|].
    intros r h' (Hres & ->). split; [exact Hres|]. split; [lia|].
    intros [Hb|Hb]; apply (f_equal get_name) in Hb; discriminate.
Qed.

(** The demonstration: each strategy turns [test_data] into the list the
    script prints. *)
Lemma demonstration_sorted :
  ∀ s, s ∈ [QuickSort; MergeSort; BubbleSort] →
    ∃ r h', sort s 12 0 [test_data] = Ok r h' ∧ h' !! r = Some test_data_sorted.
Proof.
  intros s Hs. repeat (apply elem_of_cons in Hs as [-> | Hs]);
    [| | |now apply not_elem_of_nil in Hs]; vm_compute; eauto.
Qed.

(** C1.  Each of the three strategies, run on a list object with enough
    fuel, returns normally a list that is a rearrangement of the input, in
    non-descending order, of the same length. *)
Theorem sort_returns_sorted_permutation (s : SortStrategy) (fuel : nat)
  (data : ref) (h : heap) (d : list Z) :
  s = QuickSort ∨ s = MergeSort ∨ s = BubbleSort →
  h !! data = Some d →
  length d + 1 < fuel →
  ∃ r h' out,
    sort s fuel data h = Ok r h'
    ∧ h' !! r = Some out
    ∧ out ≡ₚ d
    ∧ Sorted Z.le out
    ∧ length out = length d.
Proof.
  intros Hs Hd Hf.
  destruct (strategy_returns s fuel data h d Hs Hd Hf)
    as (r & h' & Hrun & (_ & out & Hout & Pout & Sout) & _).
  exists r, h', out. split; [exact Hrun|]. split; [exact Hout|].
  split; [exact Pout|]. split.
  - now apply StronglySorted_Sorted.
  - now apply Permutation_length.
Qed.

Lemma sort_returns_sorted_permutation_witness :
  ∃ r h' out,
    sort MergeSort 12 0 [test_data] = Ok r h'
    ∧ h' !! r = Some out
    ∧ out ≡ₚ test_data
    ∧ Sorted Z.le out
    ∧ length out = length test_data.
Proof.
  apply (sort_returns_sorted_permutation MergeSort 12 0 [test_data] test_data).
  - right. left. reflexivity.
  - reflexivity.
  - simpl. lia.
Defined.

(** C10.  Each of the three strategies leaves the list object it was given,
    and every other object that existed, with the contents it had.  Bubble
    sort always answers with a new object, and so do quick sort and merge
    sort on two items or more; on at most one item these two answer with
    the object they were given, and the store is untouched. *)
Theorem sort_leaves_input_unchanged (s : SortStrategy) (fuel : nat)
  (data : ref) (h : heap) (d : list Z) :
  s = QuickSort ∨ s = MergeSort ∨ s = BubbleSort →
  h !! data = Some d →
  length d + 1 < fuel →
  ∃ r h',
    sort s fuel data h = Ok r h'
    ∧ h' !! data = Some d
    ∧ (∀ r0 v, h !! r0 = Some v → h' !! r0 = Some v)
    ∧ (s = BubbleSort ∨ 2 ≤ length d → length h ≤ r)
    ∧ (s = QuickSort ∨ s = MergeSort → length d ≤ 1 → r = data ∧ h' = h).
Proof.
  intros Hs Hd Hf.
  destruct (strategy_returns s fuel data h d Hs Hd Hf)
    as (r & h' & Hrun & (Hpres & _) & Hnew & Hsame).
  exists r, h'. split; [exact Hrun|].
  split; [now apply (preserved_lookup h h')|].
  split; [|split; [exact Hnew | exact Hsame]].
  intros r0 v Hr0. now apply (preserved_lookup h h').
Qed.

Lemma sort_leaves_input_unchanged_witness :
  ∃ r h',
    sort BubbleSort 12 0 [test_data] = Ok r h'
    ∧ h' !! 0 = Some test_data
    ∧ (∀ r0 v, [test_data] !! r0 = Some v → h' !! r0 = Some v)
    ∧ (BubbleSort = BubbleSort ∨ 2 ≤ length test_data → length [test_data] ≤ r)
    ∧ (BubbleSort = QuickSort ∨ BubbleSort = MergeSort →
       length test_data ≤ 1 → r = 0 ∧ h' = [test_data]).
Proof.
  apply (sort_leaves_input_unchanged BubbleSort 12 0 [test_data] test_data).
  - right. right. reflexivity.
  - reflexivity.
  - simpl. lia.
Defined.

End SortingSpec.

(* ===================================================================== *)
(** * Part III.  Further properties of the embedded code                  *)
(* ===================================================================== *)

(** ** The sorting strategies, together *)

Module SortingProps.
Import Sorting SortingSpec.

(** A list has one non-descending rearrangement. *)
Lemma sorted_unique (l k : list Z) :
  StronglySorted Z.le l → StronglySorted Z.le k → l ≡ₚ k → l = k.
Proof.
  intros Sl Sk P. apply (StronglySorted_unique_strong Z.le); try assumption.
  intros x y _ _ Hxy Hyx. lia.
Qed.

(** Whichever of the three strategies a [DataSorter] holds, [sort_data]
    answers with the same contents: the strategies are interchangeable. *)
Theorem strategies_agree (self1 self2 : DataSorter) (s1 s2 : SortStrategy)
  (fuel1 fuel2 : nat) (data1 data2 : ref) (h1 h2 : heap) (d : list Z) :
  three s1 → three s2 →
  h1 !! data1 = Some d → h2 !! data2 = Some d →
  length d + 1 < fuel1 → length d + 1 < fuel2 →
  ∃ r1 h1' r2 h2' out,
    sort_data (set_strategy self1 (Some s1)) fuel1 data1 h1 = Ok r1 h1'
    ∧ sort_data (set_strategy self2 (Some s2)) fuel2 data2 h2 = Ok r2 h2'
    ∧ h1' !! r1 = Some out
    ∧ h2' !! r2 = Some out.
Proof.
  intros T1 T2 Hd1 Hd2 Hf1 Hf2.
  destruct (strategy_returns s1 fuel1 data1 h1 d T1 Hd1 Hf1)
    as (r1 & h1' & Hrun1 & (_ & out1 & Hout1 & P1 & S1) & _).
  destruct (strategy_returns s2 fuel2 data2 h2 d T2 Hd2 Hf2)
    as (r2 & h2' & Hrun2 & (_ & out2 & Hout2 & P2 & S2) & _).
  exists r1, h1', r2, h2', out1.
  split; [exact Hrun1|]. split; [exact Hrun2|]. split; [exact Hout1|].
  rewrite Hout2. f_equal. apply sorted_unique; [exact S2 | exact S1|].
  now rewrite P1, P2.
Qed.

Lemma strategies_agree_witness :
  ∃ r1 h1' r2 h2' out,
    sort_data (set_strategy (__init__ None) (Some QuickSort)) 12 0 [test_data]
    = Ok r1 h1'
    ∧ sort_data (set_strategy (__init__ None) (Some BubbleSort)) 12 0 [test_data]
      = Ok r2 h2'
    ∧ h1' !! r1 = Some out
    ∧ h2' !! r2 = Some out.
Proof.
  apply (strategies_agree (__init__ None) (__init__ None) QuickSort BubbleSort
           12 12 0 0 [test_data] [test_data] test_data).
  - left. reflexivity.
  - right. right. reflexivity.
  - reflexivity.
  - reflexivity.
  - simpl. lia.
  - simpl. lia.
Defined.

(** Sorting what a strategy returned, with the same or another of the three
    strategies, returns the same contents again; and a list that is already
    in non-descending order comes back with the contents it had. *)
Theorem sorting_again_changes_nothing (s1 s2 : SortStrategy) (fuel : nat)
  (data : ref) (h : heap) (d : list Z) :
  three s1 → three s2 →
  h !! data = Some d →
  length d + 1 < fuel →
  ∃ r1 h1 out r2 h2,
    sort s1 fuel data h = Ok r1 h1
    ∧ h1 !! r1 = Some out
    ∧ sort s2 fuel r1 h1 = Ok r2 h2
    ∧ h2 !! r2 = Some out
    ∧ (Sorted Z.le d → out = d).
Proof.
  intros T1 T2 Hd Hf.
  destruct (strategy_returns s1 fuel data h d T1 Hd Hf)
    as (r1 & h1 & Hrun1 & (_ & out & Hout & P1 & S1) & _).
  assert (Hf' : length out + 1 < fuel)
    by (rewrite (Permutation_length P1); exact Hf).
  destruct (strategy_returns s2 fuel r1 h1 out T2 Hout Hf')
    as (r2 & h2 & Hrun2 & (_ & out2 & Hout2 & P2 & S2) & _).
  exists r1, h1, out, r2, h2.
  split; [exact Hrun1|]. split; [exact Hout|]. split; [exact Hrun2|]. split.
  - rewrite Hout2. f_equal. now apply sorted_unique.
  - intros Sd. apply sorted_unique; [exact S1| |exact P1].
    apply Sorted.Sorted_StronglySorted; [|exact Sd].
    intros a b c. apply Z.le_trans.
Qed.

Lemma sorting_again_changes_nothing_witness :
  ∃ r1 h1 out r2 h2,
    sort MergeSort 12 0 [test_data] = Ok r1 h1
    ∧ h1 !! r1 = Some out
    ∧ sort QuickSort 12 r1 h1 = Ok r2 h2
    ∧ h2 !! r2 = Some out
    ∧ (Sorted Z.le test_data → out = test_data).
Proof.
  apply (sorting_again_changes_nothing MergeSort QuickSort 12 0 [test_data]
           test_data).
  - right. left. reflexivity.
  - left. reflexivity.
  - reflexivity.
  - simpl. lia.
Defined.

(** [_merge] answers with a new list that holds the items of both
    arguments, in non-descending order when both arguments are; the
    arguments, which may be one and the same object, and every other
    object keep their contents. *)
Theorem merge_builds_new_list (fuel : nat) (left right : ref) (L R : list Z)
  (h : heap) :
  h !! left = Some L → h !! right = Some R →
  length L + length R < fuel →
  ∃ r h' out,
    MergeSortStrategy._merge fuel left right h = Ok r h'
    ∧ r = length h
    ∧ h' !! r = Some out
    ∧ out ≡ₚ L ++ R
    ∧ (Sorted Z.le L → Sorted Z.le R → Sorted Z.le out)
    ∧ (∀ r0 v, h !! r0 = Some v → h' !! r0 = Some v).
Proof.
  intros Hl Hr Hf.
  destruct (merge_returns fuel left right L R h Hl Hr Hf)
    as (r & h' & Hrun & -> & Hpres & Hout).
  exists (length h), h', (merge_lists L R).
  split; [exact Hrun|]. split; [reflexivity|]. split; [exact Hout|].
  split; [apply merge_lists_perm|]. split.
  - intros SL SR. apply StronglySorted_Sorted, merge_lists_sorted;
      (apply Sorted.Sorted_StronglySorted; [intros a b c; apply Z.le_trans|]);
      assumption.
  - intros r0 v Hr0. now apply (preserved_lookup h h').
Qed.

Lemma merge_builds_new_list_witness :
  ∃ r h' out,
    MergeSortStrategy._merge 5 0 0 [[1; 3]%Z] = Ok r h'
    ∧ r = 1
    ∧ h' !! r = Some out
    ∧ out ≡ₚ [1; 3]%Z ++ [1; 3]%Z
    ∧ (Sorted Z.le [1; 3]%Z → Sorted Z.le [1; 3]%Z → Sorted Z.le out)
    ∧ (∀ r0 v, [[1; 3]%Z] !! r0 = Some v → h' !! r0 = Some v).
Proof.
  apply (merge_builds_new_list 5 0 0 [1; 3]%Z [1; 3]%Z [[1; 3]%Z]).
  - reflexivity.
  - reflexivity.
  - simpl. lia.
Defined.

End SortingProps.

(** ** The vending machine over sequences of calls *)

Module VendingMachineProps.
Import VendingMachine VendingMachineSpec.

Section Builtins.
Variable fmt2 : float -> string.

#[local] Abbreviation select_product := (select_product fmt2).
#[local] Abbreviation dispense := (dispense fmt2).
#[local] Abbreviation step := (step fmt2).
#[local] Abbreviation run := (run fmt2).

(** What [dispense] does in [SoldState] when the selection is in stock. *)
Lemma dispense_in_stock (m : VendingMachine) (product : string)
  (info : product_info) :
  _state m = SoldState →
  _selected_product m = Some product →
  _products m !! product = Some info →
  (0 < stock info)%Z →
  dispense m
  = (("🎉 Dispensing " +:+ product +:+ "...")
       :: (if (0 <? _money m - price info)%float
           then [ "💰 Returning change: $" +:+ fmt2 (_money m - price info)%float ]
           else []),
     Return {| _state := NoMoneyState; _money := 0; _selected_product := None;
               _products := <[product := one_less info]> (_products m) |}).
Proof.
  intros Hstate Hsel Hinfo Hstock.
  unfold VendingMachine.dispense, SoldState_dispense, get_selected_product,
    get_product_price, has_product, remove_product, get_money, entry.
  rewrite Hstate, Hsel, Hinfo.
  rewrite bool_decide_eq_true_2 by lia.
  simpl. destruct (0 <? _money m - price info)%float; reflexivity.
Qed.

(** A purchase that goes through: with a stocked product selected for at
    most the money inserted, the machine passes through [SoldState], hands
    the product out, announces the change when there is some, and is left
    in [NoMoneyState] with no money, no selection and one unit less of the
    product; the other products are untouched. *)
Theorem purchase_dispenses_and_resets (m : VendingMachine) (product : string)
  (info : product_info) :
  _state m = HasMoneyState →
  _products m !! product = Some info →
  (0 < stock info)%Z →
  (price info <=? _money m)%float = true →
  ∃ m2 m3,
    select_product m product
    = ([ "✅ Selected " +:+ product +:+ " ($" +:+ fmt2 (price info) +:+ ")" ],
       Return m2)
    ∧ _state m2 = SoldState
    ∧ dispense m2
      = (("🎉 Dispensing " +:+ product +:+ "...")
           :: (if (0 <? _money m - price info)%float
               then [ "💰 Returning change: $"
                        +:+ fmt2 (_money m - price info)%float ]
               else []),
         Return m3)
    ∧ _state m3 = NoMoneyState
    ∧ _money m3 = 0%float
    ∧ _selected_product m3 = None
    ∧ _products m3 = <[product := one_less info]> (_products m).
Proof.
  intros Hstate Hinfo Hstock Hprice.
  exists (set_state (set_selected_product m (Some product)) SoldState).
  exists {| _state := NoMoneyState; _money := 0; _selected_product := None;
            _products := <[product := one_less info]> (_products m) |}.
  split; [|split; [reflexivity|split]].
  - unfold VendingMachine.select_product, HasMoneyState_select_product,
      get_product_price, get_money, entry.
    now rewrite Hstate, Hinfo, Hprice.
  - exact (dispense_in_stock
             (set_state (set_selected_product m (Some product)) SoldState)
             product info eq_refl eq_refl Hinfo Hstock).
  - repeat split.
Qed.

(** Every call returns normally; it leaves the table alone or sells one
    unit of the selection; it never enters [SoldOutState]; and it keeps
    [paid]. *)
Lemma step_returns (m : VendingMachine) (c : call) :
  ∃ out m',
    step m c = (out, Return m')
    ∧ same_or_one_sold m m'
    ∧ (_state m ≠ SoldOutState → _state m' ≠ SoldOutState)
    ∧ (paid m → paid m').
Proof.
  destruct c as [amount| |product|];
    unfold VendingMachine.step, insert_money, eject_money,
      VendingMachine.select_product, VendingMachine.dispense;
    destruct (_state m) eqn:Hstate.
  all: try (eexists _, _; split; [reflexivity|];
            split; [now left|]; split; [simpl; congruence|];
            first [ intros Hp; exact Hp
                  | intros _ Hs; simpl in Hs; congruence ]).
  - (* SoldOutState.eject_money *)
    unfold SoldOutState_eject_money, get_money.
    destruct (0 <? _money m)%float;
      (eexists _, _; split; [reflexivity|];
       split; [now left|]; split; [simpl; congruence|];
       intros _ Hs; simpl in Hs; discriminate).
  - (* HasMoneyState.select_product *)
    unfold HasMoneyState_select_product, get_product_price, get_money, entry.
    destruct (_products m !! product) as [info|] eqn:Hinfo.
    + destruct (price info <=? _money m)%float eqn:Hprice.
      * eexists _, _. split; [reflexivity|].
        split; [now left|]. split; [simpl; congruence|].
        intros _ _. exists product, info. simpl. auto.
      * eexists _, _. split; [reflexivity|].
        split; [now left|]. split; [congruence|].
        intros _ Hs. rewrite Hstate in Hs. discriminate.
    + eexists _, _. split; [reflexivity|].
      split; [now left|]. split; [congruence|].
      intros _ Hs. rewrite Hstate in Hs. discriminate.
  - (* SoldState.dispense *)
    unfold SoldState_dispense, get_selected_product, get_product_price,
      has_product, remove_product, get_money, entry.
    destruct (_selected_product m) as [product|] eqn:Hsel.
    + destruct (_products m !! product) as [info|] eqn:Hinfo.
      * destruct (bool_decide (stock info > 0)%Z) eqn:Hstock.
        -- apply bool_decide_eq_true in Hstock. simpl.
           destruct (0 <? _money m - price info)%float;
             (eexists _, _; split; [reflexivity|]; split;
              [right; exists product, info; simpl;
               repeat split; auto; lia|];
              split; [simpl; congruence|];
              intros _ Hs; simpl in Hs; discriminate).
        -- eexists _, _. split; [reflexivity|].
           split; [now left|]. split; [simpl; congruence|].
           intros _ Hs. simpl in Hs. discriminate.
      * eexists _, _. split; [reflexivity|].
        split; [now left|]. split; [simpl; congruence|].
        intros _ Hs. simpl in Hs. discriminate.
    + eexists _, _. split; [reflexivity|].
      split; [now left|]. split; [simpl; congruence|].
      intros _ Hs. simpl in Hs. discriminate.
Qed.

Lemma inventory_kept_refl m : inventory_kept m m.
Proof.
  intros product. destruct (_products m !! product) as [info|] eqn:E;
    [|reflexivity].
  exists info. repeat split; auto; lia.
Qed.

Lemma inventory_kept_trans m1 m2 m3 :
  inventory_kept m1 m2 → inventory_kept m2 m3 → inventory_kept m1 m3.
Proof.
  intros H12 H23 product. specialize (H12 product). specialize (H23 product).
  destruct (_products m1 !! product) as [i1|].
  - destruct H12 as (i2 & E2 & Hp2 & Hs2 & Hn2). rewrite E2 in H23.
    destruct H23 as (i3 & E3 & Hp3 & Hs3 & Hn3).
    exists i3. split; [exact E3|]. split; [congruence|]. split; lia.
  - now rewrite H12 in H23.
Qed.

Lemma same_or_one_sold_inventory m m' :
  same_or_one_sold m m' → inventory_kept m m'.
Proof.
  intros [Heq|(sold & info & _ & _ & Hinfo & Hstock & Heq)] product;
    rewrite Heq.
  - destruct (_products m !! product) as [i|] eqn:E; [|reflexivity].
    exists i. repeat split; auto; lia.
  - destruct (decide (sold = product)) as [<-|Hne].
    + rewrite Hinfo, lookup_insert_eq. exists (one_less info).
      repeat split; simpl; lia.
    + rewrite lookup_insert_ne by exact Hne.
      destruct (_products m !! product) as [i|] eqn:E; [|reflexivity].
      exists i. repeat split; auto; lia.
Qed.

Lemma run_returns (cs : list call) : ∀ m,
  ∃ out m',
    run m cs = (out, Return m')
    ∧ inventory_kept m m'
    ∧ (_state m ≠ SoldOutState → _state m' ≠ SoldOutState)
    ∧ (paid m → paid m').
Proof.
  induction cs as [|c cs IH]; intros m.
  - exists [], m. split; [reflexivity|].
    split; [apply inventory_kept_refl|]. auto.
  - destruct (step_returns m c) as (out1 & m1 & Hstep & Hsold & Hso1 & Hp1).
    destruct (IH m1) as (out2 & m2 & Hrun & Hinv & Hso2 & Hp2).
    exists (out1 ++ out2), m2. split.
    + cbn [VendingMachine.run]. unfold bind.
      change (VendingMachine.step fmt2 m c) with (step m c).
      rewrite Hstep.
      change (VendingMachine.run fmt2 m1 cs) with (run m1 cs).
      now rewrite Hrun.
    + split; [|auto].
      apply (inventory_kept_trans m m1 m2); [|exact Hinv].
      now apply same_or_one_sold_inventory.
Qed.

(** No sequence of calls on a new machine raises, and none brings the
    machine into [SoldOutState]: nothing in the script enters that state. *)
Theorem calls_return_and_never_sell_out (cs : list call) :
  ∃ out m,
    run __init__ cs = (out, Return m)
    ∧ (_state m = NoMoneyState ∨ _state m = HasMoneyState
       ∨ _state m = SoldState).
Proof.
  destruct (run_returns cs __init__) as (out & m & Hrun & _ & Hso & _).
  exists out, m. split; [exact Hrun|].
  assert (Hne : _state m ≠ SoldOutState) by (apply Hso; discriminate).
  destruct (_state m); auto. congruence.
Qed.

(** Over any sequence of calls, on any machine, the table keeps its
    products and their prices; no stock goes up, and none that was not
    negative becomes negative. *)
Theorem calls_keep_inventory (m : VendingMachine) (cs : list call) :
  ∃ out m', run m cs = (out, Return m') ∧ inventory_kept m m'.
Proof.
  destruct (run_returns cs m) as (out & m' & Hrun & Hinv & _).
  now exists out, m'.
Qed.

(** After any sequence of calls on a new machine, a [dispense] that takes
    a unit out of the stock takes it from the selection, and the money in
    the machine covers the price of the selection: nothing is handed out
    unpaid. *)
Theorem dispense_only_when_paid (cs : list call) :
  ∃ out m,
    run __init__ cs = (out, Return m)
    ∧ ∃ out' m',
        dispense m = (out', Return m')
        ∧ (_products m' = _products m
           ∨ ∃ product info,
               _selected_product m = Some product
               ∧ _products m !! product = Some info
               ∧ (price info <=? _money m)%float = true
               ∧ (0 < stock info)%Z
               ∧ _products m' = <[product := one_less info]> (_products m)).
Proof.
  destruct (run_returns cs __init__) as (out & m & Hrun & _ & _ & Hpaid).
  exists out, m. split; [exact Hrun|].
  destruct (step_returns m Dispense) as (out' & m' & Hstep & Hsold & _ & _).
  exists out', m'. split; [exact Hstep|].
  destruct Hsold as [Heq|(product & info & Hstate & Hsel & Hinfo & Hstock & Heq)];
    [now left|].
  right. exists product, info.
  destruct Hpaid as (product' & info' & Hsel' & Hinfo' & Hprice);
    [intros Hs; discriminate | exact Hstate|].
  rewrite Hsel in Hsel'. inversion Hsel'; subst product'.
  rewrite Hinfo in Hinfo'. inversion Hinfo'; subst info'. auto.
Qed.

End Builtins.

Lemma purchase_dispenses_and_resets_witness :
  ∃ m2 m3,
    VendingMachine.select_product (fun _ => "?")
      (set_state (add_money __init__ 2.00) HasMoneyState) "Coke"
    = ([ "✅ Selected Coke ($?)" ], Return m2)
    ∧ _state m2 = SoldState
    ∧ VendingMachine.dispense (fun _ => "?") m2
      = ("🎉 Dispensing Coke..."
           :: (if (0 <? 2.00 - 1.50)%float then [ "💰 Returning change: $?" ]
               else []),
         Return m3)
    ∧ _state m3 = NoMoneyState
    ∧ _money m3 = 0%float
    ∧ _selected_product m3 = None
    ∧ _products m3
      = <["Coke" := one_less {| price := 1.50; stock := 5 |}]>
          (_products __init__).
Proof.
  apply (purchase_dispenses_and_resets (fun _ => "?")
           (set_state (add_money __init__ 2.00) HasMoneyState) "Coke"
           {| price := 1.50; stock := 5 |}).
  - reflexivity.
  - reflexivity.
  - simpl. lia.
  - reflexivity.
Defined.

End VendingMachineProps.

(** ** The payment methods *)

Module PaymentProps.
Import Payment.

Section Builtins.
Variable hash : string -> Z.
Variable fmt2 : float -> string.

(** Whatever the built-in hash and the amount, a payment through the
    processor with one of the three methods prints two lines and returns a
    dictionary whose status is "success", whose method names the strategy,
    whose amount is the amount asked, and whose transaction id is the
    method's prefix followed by a number from 0 to 9999. *)
Theorem payment_reports_success (self : PaymentProcessor)
  (s : PaymentStrategy) (method prefix : string) (amount : float) :
  provided hash fmt2 s method prefix →
  ∃ line1 line2 d n,
    process_payment (set_strategy self (Some s)) amount
    = ([line1; line2], Return d)
    ∧ dict_get "status" d = Some (VStr "success")
    ∧ dict_get "method" d = Some (VStr method)
    ∧ dict_get "amount" d = Some (VFloat amount)
    ∧ dict_get "transaction_id" d = Some (VStr (prefix +:+ pretty n))
    ∧ (0 ≤ n < 10000)%Z.
Proof.
  intros [card cvv|email|wallet currency].
  - do 3 eexists. exists (hash card `mod` 10000)%Z.
    split; [reflexivity|]. repeat split; try reflexivity;
      apply Z.mod_pos_bound; lia.
  - do 3 eexists. exists (hash email `mod` 10000)%Z.
    split; [reflexivity|]. repeat split; try reflexivity;
      apply Z.mod_pos_bound; lia.
  - do 3 eexists. exists (hash wallet `mod` 10000)%Z.
    split; [reflexivity|]. repeat split; try reflexivity;
      apply Z.mod_pos_bound; lia.
Qed.

End Builtins.

Lemma payment_reports_success_witness :
  ∃ line1 line2 d n,
    process_payment
      (set_strategy (__init__ None)
         (Some (PayPalPayment (fun _ => (-7)%Z) (fun _ => "149.50")
                  "customer@example.com")))
      149.50
    = ([line1; line2], Return d)
    ∧ dict_get "status" d = Some (VStr "success")
    ∧ dict_get "method" d = Some (VStr "paypal")
    ∧ dict_get "amount" d = Some (VFloat 149.50)
    ∧ dict_get "transaction_id" d = Some (VStr ("PP-" +:+ pretty n))
    ∧ (0 ≤ n < 10000)%Z.
Proof.
  apply (payment_reports_success (fun _ => (-7)%Z) (fun _ => "149.50")
           (__init__ None) _ "paypal" "PP-" 149.50).
  apply provided_paypal.
Defined.

(** *** Characters *)








End PaymentProps.

(** ** The stock price and its observers *)

Module StockMarketProps.
Import StockMarket.

(** A float above zero is not zero. *)
Lemma float_positive_nonzero (x : float) :
  (0 <? x)%float = true → (x =? 0)%float = false.
Proof.
  rewrite ltb_spec, FloatAxioms.eqb_spec. unfold SFltb, SFeqb.
  destruct (SFcompare (Prim2SF 0) (Prim2SF x)) as [[| |]|] eqn:E;
    try discriminate.
  intros _. now rewrite (VendingMachineSpec.SFcompare_Lt_Gt _ _ E).
Qed.

(** A float that differs from itself, a NaN, differs from every float. *)
Lemma float_nan_differs (x y : float) :
  (x =? x)%float = false → (x =? y)%float = false.
Proof.
  rewrite !FloatAxioms.eqb_spec. unfold SFeqb.
  destruct (Prim2SF x) as [s|s| |s m e]; simpl.
  - discriminate.
  - destruct s; discriminate.
  - reflexivity.
  - destruct s; rewrite Z.compare_refl, Pos.compare_cont_refl; discriminate.
Qed.

(** The guard of the percentage keeps the division away from zero. *)
Lemma change_percent_returns (price change : float) :
  ∃ percent, change_percent price change = Some percent.
Proof.
  unfold change_percent, truediv.
  destruct (0 <? price - change)%float eqn:Hpos; [|eauto].
  rewrite (float_positive_nonzero _ Hpos). eauto.
Qed.

Section Formats.
Variable class_name : Observer -> string.
Variable fmt2 : float -> string.
Variable fmt2_signed : float -> string.

(** The analyst reads the last three prices only when it has three. *)
Lemma analyst_update_returns (self : Analyst) (symbol : string)
  (price change : float) :
  ∃ self' out,
    Analyst_update fmt2 self symbol price change = Some (self', out)
    ∧ analyst_name self' = analyst_name self
    ∧ _price_history self'
      = <[symbol := default [] (_price_history self !! symbol) ++ [price]]>
          (_price_history self).
Proof.
  unfold Analyst_update.
  set (history := default [] (_price_history self !! symbol) ++ [price]).
  destruct (decide (3 ≤ length history)) as [Hlen|Hlen]; [|eauto].
  rewrite <- length_reverse in Hlen.
  destruct (reverse history) as [|h1 [|h2 [|h3 rest]]];
    simpl in Hlen; try lia. eauto.
Qed.

(** No [update] of the four observers of the script raises, whatever the
    symbol, the price and the change it is sent, a NaN or an infinity
    included: the percentage is never divided by zero and the analyst never
    reads before the start of its history. *)
Theorem updates_never_raise (symbol : string) (price change : float) :
  (∀ self, ∃ out,
      Trader_update fmt2_signed self symbol price change = Some out
      ∧ length out ≤ 2)
  ∧ (∀ self, ∃ line,
      MobileApp_update fmt2 fmt2_signed self symbol price change = Some [line])
  ∧ (∀ self, ∃ out,
      EmailNotifier_update fmt2 self symbol price change = Some out
      ∧ length out ≤ 1)
  ∧ (∀ self, ∃ self' out,
      Analyst_update fmt2 self symbol price change = Some (self', out)
      ∧ analyst_name self' = analyst_name self).
Proof.
  destruct (change_percent_returns price change) as [percent Hpercent].
  split; [|split; [|split]].
  - intros self. unfold Trader_update. rewrite Hpercent.
    destruct (trader_threshold self * 100 <=? abs percent)%float;
      eexists; split; try reflexivity; simpl; lia.
  - intros self. unfold MobileApp_update. rewrite Hpercent. eauto.
  - intros self. unfold EmailNotifier_update.
    destruct (1.0 <? abs change)%float;
      eexists; split; try reflexivity; simpl; lia.
  - intros self.
    destruct (analyst_update_returns self symbol price change)
      as (self' & out & Hup & Hname & _).
    now exists self', out.
Qed.

(** An analyst keeps, for each symbol, every price it was sent for that
    symbol, in the order of arrival, after those it already had; prices
    for other symbols do not touch it. *)
Theorem analyst_records_every_price (ups : list (string * float * float)) :
  ∀ self, ∃ self' out,
    Analyst_updates fmt2 self ups = Some (self', out)
    ∧ ∀ symbol,
        default [] (_price_history self' !! symbol)
        = default [] (_price_history self !! symbol) ++ prices_for symbol ups.
Proof.
  induction ups as [|[[sym price] change] ups IH]; intros self.
  - exists self, []. split; [reflexivity|]. intros symbol.
    unfold prices_for. simpl. now rewrite app_nil_r.
  - destruct (analyst_update_returns self sym price change)
      as (self1 & out1 & Hup & _ & Hhist).
    destruct (IH self1) as (self2 & out2 & Hrun & Hall).
    exists self2, (out1 ++ out2). split.
    + cbn [Analyst_updates]. now rewrite Hup, Hrun.
    + intros symbol. rewrite Hall, Hhist. unfold prices_for.
      destruct (decide (sym = symbol)) as [->|Hne].
      * rewrite lookup_insert_eq, filter_cons_True by reflexivity.
        simpl. now rewrite <- app_assoc.
      * rewrite lookup_insert_ne by exact Hne.
        now rewrite filter_cons_False by exact Hne.
Qed.

(** Setting the price the subject already has is silent: nothing is
    printed, no observer is called and the subject is unchanged.  So the
    same [set_price] call made twice in a row notifies once at most,
    unless the price is a NaN, which differs from itself: then every call
    notifies every subscriber. *)
Theorem set_price_notifies_on_change_only (self : StockPrice)
  (new_price : float) :
  ((new_price =? _price self)%float = true →
     set_price fmt2 self new_price = (self, []))
  ∧ ((new_price =? new_price)%float = true →
     set_price fmt2 (set_price fmt2 self new_price).1 new_price
     = ((set_price fmt2 self new_price).1, []))
  ∧ ((new_price =? new_price)%float = false →
     deliveries (set_price fmt2 self new_price).2 = _observers self
     ∧ _observers (set_price fmt2 self new_price).1 = _observers self).
Proof.
  split; [|split].
  - intros Hsame. unfold set_price. now rewrite Hsame.
  - intros Hrefl. unfold set_price at 2 3.
    destruct (new_price =? _price self)%float eqn:Hsame; simpl.
    + unfold set_price. now rewrite Hsame.
    + unfold set_price. simpl. now rewrite Hrefl.
  - intros Hnan.
    pose proof (float_nan_differs _ (_price self) Hnan) as Hne.
    unfold set_price. rewrite Hne. cbn [negb fst snd deliveries].
    split; [|reflexivity]. now rewrite StockMarketSpec.deliveries_notify.
Qed.

End Formats.

Lemma set_price_notifies_on_change_only_witness :
  set_price (fun _ => "?") (__init__ "AAPL" 150.0) 150.0
  = (__init__ "AAPL" 150.0, []).
Proof.
  apply (set_price_notifies_on_change_only (fun _ => "?")
           (__init__ "AAPL" 150.0) 150.0).
  reflexivity.
Defined.

End StockMarketProps.

(** ** The file system under [add] and [remove] *)

Module FileSystemProps.
Import FileSystem FileSystemSpec.

Lemma list_remove_snoc (x : ref) (l : list ref) :
  x ∉ l → list_remove x (l ++ [x]) = l.
Proof.
  induction l as [|y l IH]; simpl; intros Hx.
  - now rewrite decide_True.
  - apply not_elem_of_cons in Hx as [Hne Hx].
    rewrite decide_False by congruence. now rewrite IH.
Qed.

Lemma list_remove_app_l (x : ref) (l k : list ref) :
  x ∈ l → list_remove x (l ++ k) = list_remove x l ++ k.
Proof.
  induction l as [|y l IH]; simpl; intros Hx.
  - now apply not_elem_of_nil in Hx.
  - destruct (decide (y = x)) as [_|Hne]; [reflexivity|].
    apply elem_of_cons in Hx as [Hx|Hx]; [congruence|]. now rewrite IH.
Qed.

(** [remove] undoes [add] when the item was not among the children: the
    store is again what it was.  When the folder already held the item,
    [add] holds it twice and [remove] takes out the earlier entry, so the
    item ends up last. *)
Theorem add_then_remove (h : store) (self item : ref) (name : string)
  (children : list ref) :
  h !! self = Some (Folder name children) →
  ∃ h',
    add h self item = Some h'
    ∧ (item ∉ children → remove h' self item = Some h)
    ∧ (item ∈ children →
       remove h' self item
       = Some (<[self := Folder name (list_remove item children ++ [item])]> h)).
Proof.
  intros Hself. pose proof (lookup_lt_Some _ _ _ Hself) as Hlt.
  unfold add. rewrite Hself. eexists. split; [reflexivity|].
  unfold remove. rewrite list_lookup_insert_eq by exact Hlt.
  rewrite decide_True by (apply elem_of_app; right; apply list_elem_of_here).
  rewrite list_insert_insert_eq. split.
  - intros Hx. rewrite list_remove_snoc by exact Hx.
    f_equal. now apply list_insert_id.
  - intros Hx. now rewrite list_remove_app_l.
Qed.

Lemma add_then_remove_witness :
  ∃ h',
    add documents_store 1 4 = Some h'
    ∧ (4 ∉ [2; 3] → remove h' 1 4 = Some documents_store)
    ∧ (4 ∈ [2; 3] →
       remove h' 1 4
       = Some (<[1 := Folder "Documents" (list_remove 4 [2; 3] ++ [4])]>
                 documents_store)).
Proof.
  apply (add_then_remove documents_store 1 4 "Documents" [2; 3]).
  reflexivity.
Defined.

(** *** An item added below is seen from above *)

Lemma height_children_app (ts us : list tree) :
  foldr (fun t n => height t `max` n) 0 (ts ++ us)
  = foldr (fun t n => height t `max` n) 0 ts
      `max` foldr (fun t n => height t `max` n) 0 us.
Proof. induction ts as [|t ts IH]; simpl; [reflexivity|]. rewrite IH. lia. Qed.

Section Graft.
Variable h : store.
Variable sub item : ref.
Variable name : string.
Variable children : list ref.
Variable ti : tree.
Hypothesis Hsub : h !! sub = Some (Folder name children).
Hypothesis Hitem : unfolds h item ti.
Hypothesis Hfresh : sub ∉ refs ti.

#[local] Abbreviation h' := (<[sub := Folder name (children ++ [item])]> h).

Lemma graft_properties n : ∀ t r,
  height t ≤ n → unfolds h r t →
  unfolds h' r (graft sub ti t)
  ∧ height (graft sub ti t) ≤ height t + height ti
  ∧ Z_sum (file_sizes (graft sub ti t))
    = (Z_sum (file_sizes t)
       + Z.of_nat (occurrences sub t) * Z_sum (file_sizes ti))%Z.
Proof using Hsub Hitem Hfresh.
  pose proof (lookup_lt_Some _ _ _ Hsub) as Hlt.
  induction n as [|n IH]; intros t r Hh Hu.
  - pose proof (height_pos t). lia.
  - destruct Hu as [r nm size Hr | r nm cs ts Hr Hts].
    + assert (Hne : sub ≠ r) by (intros ->; congruence).
      split; [|split].
      * constructor. now rewrite list_lookup_insert_ne.
      * simpl. lia.
      * unfold occurrences. simpl.
        rewrite filter_cons_False by congruence. simpl. lia.
    + simpl in Hh.
      assert (Hkids : Forall2 (unfolds h') cs (map (graft sub ti) ts)
                ∧ foldr (fun t n => height t `max` n) 0 (map (graft sub ti) ts)
                  ≤ foldr (fun t n => height t `max` n) 0 ts + height ti
                ∧ Z_sum (concat (map file_sizes (map (graft sub ti) ts)))
                  = (Z_sum (concat (map file_sizes ts))
                     + Z.of_nat (length (filter (fun x => x = sub)
                                           (concat (map refs ts))))
                       * Z_sum (file_sizes ti))%Z).
      { assert (Hle : ∀ t, t ∈ ts → height t ≤ n).
        { intros t Ht. pose proof (height_child t ts Ht). lia. }
        clear Hh Hr. induction Hts as [|c t cs ts Hc _ IHts]; simpl.
        - split; [constructor|]. split; lia.
        - destruct (IH t c (Hle t (list_elem_of_here _ _)) Hc)
            as (Hu1 & Hh1 & Hs1).
          destruct IHts as (Hu2 & Hh2 & Hs2).
          { intros t0 Ht0. apply Hle. now apply list_elem_of_further. }
          split; [now constructor|]. split; [lia|].
          rewrite !Z_sum_app, Hs1, Hs2, filter_app, length_app.
          unfold occurrences. lia. }
      destruct Hkids as (Hu & Hhk & Hsk).
      destruct (decide (r = sub)) as [->|Hne].
      * rewrite Hsub in Hr. inversion Hr; subst nm cs. split; [|split].
        -- simpl. rewrite decide_True by reflexivity.
           apply (unfolds_Folder _ sub name (children ++ [item]));
             [now apply list_lookup_insert_eq|].
           apply Forall2_app; [exact Hu|].
           constructor; [|constructor].
           now apply (unfolds_insert h sub _ (height ti)).
        -- simpl. rewrite decide_True by reflexivity.
           rewrite height_children_app. simpl. lia.
        -- simpl. rewrite decide_True by reflexivity.
           rewrite map_app, concat_app, Z_sum_app, Hsk. simpl.
           rewrite app_nil_r. unfold occurrences. simpl.
           rewrite filter_cons_True by reflexivity. simpl length. lia.
      * split; [|split].
        -- simpl. rewrite decide_False by exact Hne. rewrite app_nil_r.
           apply (unfolds_Folder _ r nm cs);
             [now rewrite list_lookup_insert_ne|exact Hu].
        -- simpl. rewrite decide_False by exact Hne. rewrite app_nil_r. lia.
        -- simpl. rewrite decide_False by exact Hne. rewrite app_nil_r, Hsk.
           unfold occurrences. simpl.
           rewrite filter_cons_False by exact Hne. reflexivity.
Qed.

End Graft.

(** Folders hold references, not copies: an item added to a folder is
    counted at once by every folder above it.  After [sub.add(item)] the
    size of any [root] grows by the size of the item, once for each place
    where [sub] sits below [root] (once in a tree without shared folders,
    not at all when [sub] is not below [root]). *)
Theorem add_below_is_seen_above (h : store) (root sub item : ref)
  (name : string) (children : list ref) (t ti : tree) (fuel : nat) :
  unfolds h root t →
  h !! sub = Some (Folder name children) →
  unfolds h item ti →
  sub ∉ refs ti →
  height t + height ti ≤ fuel →
  ∃ h',
    add h sub item = Some h'
    ∧ get_size fuel h root = Some (Z_sum (file_sizes t))
    ∧ get_size fuel h' root
      = Some (Z_sum (file_sizes t)
              + Z.of_nat (occurrences sub t) * Z_sum (file_sizes ti))%Z.
Proof.
  intros Hroot Hsub Hitem Hfresh Hfuel.
  destruct (graft_properties h sub item name children ti Hsub Hitem Hfresh
              (height t) t root (le_n _) Hroot) as (Hu & Hh & Hs).
  unfold add. rewrite Hsub. eexists. split; [reflexivity|]. split.
  - apply (get_size_unfolds h fuel root t Hroot). lia.
  - rewrite <- Hs. apply (get_size_unfolds _ fuel root _ Hu). lia.
Qed.

Lemma add_below_is_seen_above_witness :
  ∃ h',
    add (documents_store ++ [File "notes.txt" 100]) 1 5 = Some h'
    ∧ get_size 4 (documents_store ++ [File "notes.txt" 100]) 0
      = Some (Z_sum (file_sizes documents_tree))
    ∧ get_size 4 h' 0
      = Some (Z_sum (file_sizes documents_tree)
              + Z.of_nat (occurrences 1 documents_tree)
                * Z_sum (file_sizes (Leaf 5 "notes.txt" 100)))%Z.
Proof.
  apply (add_below_is_seen_above (documents_store ++ [File "notes.txt" 100])
           0 1 5 "Documents" [2; 3] documents_tree (Leaf 5 "notes.txt" 100) 4).
  - apply (unfolds_Folder _ 0 "root" [1; 4]); [reflexivity|].
    repeat constructor.
    apply (unfolds_Folder _ 1 "Documents" [2; 3]); [reflexivity|].
    repeat constructor.
  - reflexivity.
  - now constructor.
  - intros Hin. apply list_elem_of_singleton in Hin. discriminate.
  - simpl. lia.
Defined.

(** *** Removing a child takes its size off *)

Lemma list_remove_split (x : ref) (l : list ref) :
  x ∈ l → ∃ l1 l2, l = l1 ++ (x :: l2) ∧ (x ∉ l1) ∧ list_remove x l = l1 ++ l2.
Proof.
  induction l as [|y l IH]; intros Hin.
  - now apply elem_of_nil in Hin.
  - simpl. destruct (decide (y = x)) as [-> | Hne].
    + exists [], l. split; [reflexivity|]. split; [apply not_elem_of_nil|reflexivity].
    + apply elem_of_cons in Hin. destruct Hin as [-> | Hin]; [congruence|].
      destruct (IH Hin) as (l1 & l2 & -> & Hnot & Hrm).
      exists (y :: l1), l2. split; [reflexivity|]. split.
      * intros Hx. apply elem_of_cons in Hx. destruct Hx as [-> | Hx];
          [congruence | contradiction].
      * now rewrite Hrm.
Qed.

(** [remove] takes out one occurrence of the item, the first: the folder's
    size drops by the item's size, once, also when the folder holds the
    item several times; removing an item the folder does not hold changes
    nothing. *)
Theorem remove_takes_size_off (h : store) (self item : ref) (name : string)
  (children : list ref) (ts : list tree) (ti : tree) (fuel : nat) :
  h !! self = Some (Folder name children) →
  unfolds h self (Node self name ts) →
  unfolds h item ti →
  height (Node self name ts) ≤ fuel →
  ∃ h',
    remove h self item = Some h'
    ∧ (item ∉ children → h' = h)
    ∧ (item ∈ children →
       get_size fuel h' self
       = Some (Z_sum (file_sizes (Node self name ts)) - Z_sum (file_sizes ti))%Z).
Proof.
  intros Hself Hu Hitem Hfuel. unfold remove. rewrite Hself.
  destruct (decide (item ∈ children)) as [Hin | Hnot].
  - eexists. split; [reflexivity|]. split; [contradiction|]. intros _.
    inversion Hu as [| r nm cs ts0 Hr Hts]; subst.
    rewrite Hself in Hr. inversion Hr; subst cs. clear Hr.
    destruct (list_remove_split item children Hin) as (l1 & l2 & -> & _ & ->).
    apply Forall2_app_inv_l in Hts.
    destruct Hts as (t1 & trest & Ht1 & Hrest & ->).
    inversion Hrest as [| c t cs2 t2 Hc Ht2]; subst.
    assert (t = ti) as ->.
    { apply (unfolds_det h (height t) t (le_n _) item ti Hc Hitem). }
    assert (Hu' : unfolds (<[self := Folder name (l1 ++ l2)]> h) self
                    (Node self name (t1 ++ t2))).
    { apply (unfolds_Folder _ self name (l1 ++ l2));
        [apply list_lookup_insert_eq; now apply (lookup_lt_Some _ _ _ Hself)|].
      apply unfolds_insert_children; [now apply Forall2_app|].
      intros t Ht. apply (unfolds_acyclic h self name (t1 ++ ti :: t2) t Hu).
      apply elem_of_app in Ht. apply elem_of_app.
      destruct Ht as [Ht | Ht]; [now left | right; now apply list_elem_of_further]. }
    rewrite (get_size_unfolds _ fuel self _ Hu').
    + f_equal. simpl. rewrite !map_app, !concat_app, !Z_sum_app. simpl.
      rewrite Z_sum_app. lia.
    + simpl in Hfuel |- *. rewrite height_children_app in Hfuel |- *.
      simpl in Hfuel. lia.
  - eexists. split; [reflexivity|]. split; [reflexivity | contradiction].
Qed.

Lemma remove_takes_size_off_witness :
  ∃ h',
    remove documents_store 0 1 = Some h'
    ∧ (1 ∉ [1; 4] → h' = documents_store)
    ∧ (1 ∈ [1; 4] →
       get_size 3 h' 0
       = Some (Z_sum (file_sizes documents_tree)
               - Z_sum (file_sizes
                          (Node 1 "Documents"
                             [ Leaf 2 "resume.pdf" 245760;
                               Leaf 3 "cover_letter.docx" 15360 ])))%Z).
Proof.
  apply (remove_takes_size_off documents_store 0 1 "root" [1; 4]).
  - reflexivity.
  - exact documents_unfolds.
  - apply (unfolds_Folder _ 1 "Documents" [2; 3]); [reflexivity|].
    repeat constructor.
  - simpl. lia.
Defined.

(** *** The listing *)

Lemma join_head (sep : string) (l rest : list string) :
  l ≠ [] →
  String.concat sep (String.concat sep l :: rest) = String.concat sep (l ++ rest).
Proof.
  induction l as [|a l IH]; intros Hl; [congruence|].
  destruct l as [|b l]; [reflexivity|].
  specialize (IH ltac:(discriminate)).
  change (String.concat sep ((a :: b :: l) ++ rest))
    with (a +:+ sep +:+ String.concat sep ((b :: l) ++ rest)).
  rewrite <- IH.
  change (String.concat sep (a :: b :: l))
    with (a +:+ sep +:+ String.concat sep (b :: l)).
  destruct rest as [|r rest].
  - reflexivity.
  - change (String.concat sep (?x :: r :: rest))
      with (x +:+ sep +:+ String.concat sep (r :: rest)).
    now rewrite !CoffeeShopSpec.string_app_assoc.
Qed.

Lemma join_flatten (sep first : string) (ls : list (list string)) :
  Forall (fun l => l ≠ []) ls →
  String.concat sep (first :: map (String.concat sep) ls)
  = String.concat sep (first :: concat ls).
Proof.
  intros Hls. revert first. induction Hls as [|l ls Hl _ IH]; intros first.
  - reflexivity.
  - simpl map. simpl concat.
    assert (Hne : l ++ concat ls ≠ []) by (destruct l; [congruence|discriminate]).
    change (String.concat sep (first :: ?x :: ?r))
      with (first +:+ sep +:+ String.concat sep (x :: r)).
    rewrite IH, join_head by exact Hl.
    destruct (l ++ concat ls); [congruence|reflexivity].
Qed.

Lemma lines_nonempty indent t : lines indent t ≠ [].
Proof. destruct t; discriminate. Qed.

Lemma lines_count n : ∀ t indent,
  height t ≤ n → length (lines indent t) = length (refs t).
Proof.
  induction n as [|n IH]; intros t indent Hh.
  - pose proof (height_pos t). lia.
  - destruct t as [r name size | r name ts]; [reflexivity|].
    simpl in Hh |- *. f_equal.
    assert (Hle : ∀ t, t ∈ ts → height t ≤ n).
    { intros t Ht. pose proof (height_child t ts Ht). lia. }
    clear Hh. induction ts as [|t ts IHts]; [reflexivity|].
    simpl. rewrite !length_app, (IH t) by (apply Hle, list_elem_of_here).
    rewrite IHts; [reflexivity|].
    intros t0 Ht0. now apply Hle, list_elem_of_further.
Qed.

(** [display] returns one line for each item below the folder, itself
    included: the folder first, then its children in order, each with
    all it holds, an item [d] levels down indented by [indent + d]; the
    line of a folder shows the sum of the sizes of the files below it.
    The text of a child, itself several lines, is not nested: the result
    is the flat list of lines joined by newlines. *)
Theorem display_lists_every_item (h : store) (self : ref) (t : tree)
  (fuel : nat) (indent : Z) :
  unfolds h self t →
  height t < fuel →
  display fuel h self indent = Some (String.concat newline (lines indent t))
  ∧ length (lines indent t) = length (refs t).
Proof.
  intros Hu Hfuel. split; [|now apply (lines_count (height t))].
  revert self t indent Hu Hfuel.
  induction fuel as [|fuel IH]; intros self t indent Hu Hfuel; [lia|].
  pose proof (get_size_unfolds h fuel self t Hu ltac:(lia)) as Hsize.
  destruct Hu as [r name size Hr | r name cs ts Hr Hts].
  - simpl. now rewrite Hr.
  - cbn [display]. rewrite Hr, Hsize. cbn [mbind option_bind].
    assert (Hrest : mapM (fun child => display fuel h child (indent + 1)) cs
                    = Some (map (fun t => String.concat newline
                                            (lines (indent + 1) t)) ts)).
    { apply mapM_Some. simpl in Hfuel.
      assert (Hle : ∀ t, t ∈ ts → height t < fuel).
      { intros t Ht. pose proof (height_child t ts Ht). lia. }
      clear Hr Hsize Hfuel.
      induction Hts as [|c t cs ts Hc _ IHts]; constructor.
      - apply IH; [exact Hc | apply Hle, list_elem_of_here].
      - apply IHts. intros t0 Ht0. now apply Hle, list_elem_of_further. }
    rewrite Hrest. cbn [mbind option_bind]. f_equal.
    rewrite <- (map_map (lines (indent + 1)) (String.concat newline)).
    rewrite join_flatten; [reflexivity|].
    apply Forall_forall. intros l Hl. apply list_elem_of_fmap in Hl.
    destruct Hl as (t & -> & _). apply lines_nonempty.
Qed.

Lemma display_lists_every_item_witness :
  display 4 documents_store 0 0
  = Some (String.concat newline (lines 0 documents_tree))
  ∧ length (lines 0 documents_tree) = length (refs documents_tree).
Proof.
  apply (display_lists_every_item documents_store 0 documents_tree 4 0).
  - exact documents_unfolds.
  - simpl. lia.
Defined.

End FileSystemProps.

(** ** Adapter: the player and its adapters *)

Module MediaPlayerProps.
Import MediaPlayer.

(** The player succeeds exactly when one of its adapters would, called
    directly with the same arguments, and then with that adapter's output
    and result; no tag is accepted by two adapters.  When the player
    raises, nothing was printed, every adapter would have refused too, and
    the error is the player's own: an adapter's refusal ("... adapter
    cannot play ...") is never seen through the player. *)
Theorem player_succeeds_with_its_adapters (audio_type file_name : string) :
  (∀ out v,
     play audio_type file_name = (out, Return v) ↔
     Mp3Adapter_play audio_type file_name = (out, Return v)
     ∨ Mp4Adapter_play audio_type file_name = (out, Return v)
     ∨ VlcAdapter_play audio_type file_name = (out, Return v))
  ∧ (∀ out v out' v',
       (Mp3Adapter_play audio_type file_name = (out, Return v) →
        Mp4Adapter_play audio_type file_name ≠ (out', Return v')
        ∧ VlcAdapter_play audio_type file_name ≠ (out', Return v'))
       ∧ (Mp4Adapter_play audio_type file_name = (out, Return v) →
          VlcAdapter_play audio_type file_name ≠ (out', Return v')))
  ∧ (∀ out e,
       play audio_type file_name = (out, Raise e) →
       out = []
       ∧ e = ValueError ("Invalid media type: " +:+ audio_type)
       ∧ Mp3Adapter_play audio_type file_name
         = ([], Raise (ValueError ("MP3 adapter cannot play " +:+ audio_type +:+ " files")))
       ∧ Mp4Adapter_play audio_type file_name
         = ([], Raise (ValueError ("MP4 adapter cannot play " +:+ audio_type +:+ " files")))
       ∧ VlcAdapter_play audio_type file_name
         = ([], Raise (ValueError ("VLC adapter cannot play " +:+ audio_type +:+ " files")))).
Proof.
  unfold play, Mp3Adapter_play, Mp4Adapter_play, VlcAdapter_play,
    play_mp3, play_mp4, play_vlc.
  destruct (decide (lower audio_type = "mp3")) as [E3|N3];
    destruct (decide (lower audio_type = "mp4")) as [E4|N4];
    destruct (decide (lower audio_type = "vlc")) as [Ev|Nv];
    try congruence.
  all: split; [|split].
  all: try (intros out v; split;
            [ intros H; first [ now left | now (right; left) | now (right; right)
                              | discriminate H ]
            | intros [H | [H | H]]; first [ exact H | discriminate H ] ]).
  all: try (intros out v out' v'; split; intros H; repeat split;
            first [ discriminate | discriminate H ]).
  all: intros out e H; try discriminate H.
  inversion H; subst. repeat split.
Qed.

End MediaPlayerProps.
